(** * kajiki/template.py: the template runtime, embedded and verified

    A shallow embedding of the runtime helpers of [kajiki.template._Template]
    (escaping, attribute rendering, [_collect], the [py:with] stack, template
    inheritance through [_extend]) and of the line table computed by
    [from_ir], together with the properties the specification states about
    them. *)

From Stdlib Require Import ZArith Ascii String List Lia Bool.
From stdpp Require Import base option list sorting gmap strings pretty fin_maps.

Local Open Scope string_scope.

(** Text is appended by computation throughout. *)
#[local] Arguments String.append !_ _ / : simpl nomatch.

(** ** Python values

    The runtime handles arbitrary Python objects.  The constructors below are
    the ones the helpers distinguish: [None], booleans and integers (which
    compare equal across the two types: [1 == True]), text, the empty tuple
    (the default of [locals_.get(k, ())]), instances of [kajiki.util.flattener],
    objects that expose [__html__], and any other object, known only by its
    identity and by the text [str()] returns for it. *)

(** The double quote character, code 34. *)
Definition dquote : ascii := "034"%char.

Inductive value : Type :=
| VNone
| VBool (b : bool)
| VInt (n : Z)
| VStr (s : string)
| VEmptyTuple
| VFlattener (text : string)
| VHtml (html : string) (text : string)
| VObj (id : nat) (text : string).

#[global] Instance value_eq_dec : EqDecision value.
Proof. solve_decision. Defined.

(** [str(v)]. *)
Definition py_str (v : value) : string :=
  match v with
  | VNone => "None"
  | VBool true => "True"
  | VBool false => "False"
  | VInt n => pretty n
  | VStr s => s
  | VEmptyTuple => "()"
  | VFlattener text => text
  | VHtml _ text => text
  | VObj _ text => text
  end.

(** The integer a boolean or an integer stands for, when [v] is one. *)
Definition py_num (v : value) : option Z :=
  match v with
  | VBool b => Some (if b then 1 else 0)%Z
  | VInt n => Some n
  | _ => None
  end.

(** [v == w]: numbers by value, text by content, [None] and [()] with
    themselves, every other object by identity. *)
Definition py_eq (v w : value) : bool :=
  match py_num v, py_num w with
  | Some a, Some b => bool_decide (a = b)
  | Some _, None | None, Some _ => false
  | None, None => bool_decide (v = w)
  end.

(** Truth value of [v] in a condition. *)
Definition py_truth (v : value) : bool :=
  match v with
  | VNone => false
  | VBool b => b
  | VInt n => negb (Z.eqb n 0)
  | VStr s => negb (String.eqb s EmptyString)
  | VEmptyTuple => false
  | _ => true
  end.

(** [v < w] as Python 3 evaluates it: numbers with numbers, text with text
    (by code point, which is the byte order of its UTF-8 encoding), the
    empty tuple with itself; any other pair raises [TypeError] ([None]). *)
Definition py_lt (v w : value) : option bool :=
  match py_num v, py_num w with
  | Some a, Some b => Some (Z.ltb a b)
  | _, _ =>
      match v, w with
      | VStr s, VStr t => Some (String.ltb s t)
      | VEmptyTuple, VEmptyTuple => Some false
      | _, _ => None
      end
  end.

(** ** [_Template._escape] *)

Module Escaper.

(** [s.replace(old, new)] for a one-character [old]. *)
Fixpoint replace (old : ascii) (new : string) (s : string) : string :=
  match s with
  | EmptyString => EmptyString
  | String c s' =>
      if Ascii.eqb c old then new ++ replace old new s'
      else String c (replace old new s')
  end.

(** [_re_escape], the alternation of the ampersand, the two angle brackets
    and the double quote: whether one character matches it. *)
Definition re_escape_char (c : ascii) : bool :=
  Ascii.eqb c "&" || Ascii.eqb c "<" || Ascii.eqb c ">" || Ascii.eqb c dquote.

(** [_re_escape.search(uval)] as a condition: some position matches. *)
Fixpoint re_escape_search (s : string) : bool :=
  match s with
  | EmptyString => false
  | String c s' => re_escape_char c || re_escape_search s'
  end.

(** The text branch of [_escape], after [uval = str(value)]. *)
Definition escape_text (uval : string) : string :=
  if re_escape_search uval then
    replace dquote "&quot;"
      (replace ">" "&gt;" (replace "<" "&lt;" (replace "&" "&amp;" uval)))
  else uval.

Definition _escape (v : value) : value :=
  match v with
  | VNone => VNone
  | VFlattener _ => v
  | VHtml html _ => VStr html
  | _ => VStr (escape_text (py_str v))
  end.

(** The specification's reading: one pass over the text, each character
    replaced by its entity when it is one of the four. *)
Definition entity (c : ascii) : string :=
  if Ascii.eqb c "&" then "&amp;"
  else if Ascii.eqb c "<" then "&lt;"
  else if Ascii.eqb c ">" then "&gt;"
  else if Ascii.eqb c dquote then "&quot;"
  else String c EmptyString.

Fixpoint single_pass (s : string) : string :=
  match s with
  | EmptyString => EmptyString
  | String c s' => entity c ++ single_pass s'
  end.

End Escaper.

(** ** [_Template._collect] *)

Module Collect.

(** The loop of [_collect]: [result] grows by [str(part)] for every part
    that is not [None]. *)
Definition collect_loop (it : list value) : list string :=
  fold_left
    (fun result part =>
       match part with
       | VNone => result
       | _ => (result ++ [py_str part])%list
       end)
    it [].

(** [''.join(result)]. *)
Definition join (result : list string) : string :=
  fold_right String.append EmptyString result.

(** [_collect(it)]: the joined text, or [None] when [result] is empty. *)
Definition _collect (it : list value) : value :=
  match collect_loop it with
  | [] => VNone
  | result => VStr (join result)
  end.

(** The specification's reading: the parts that are not [None], as text. *)
Definition present (part : value) : bool :=
  match part with VNone => false | _ => true end.

Definition fragments (it : list value) : list string :=
  map py_str (List.filter present it).

End Collect.

(** ** The [py:with] stack: [_push_with] and [_pop_with] *)

Module WithStack.

(** The marker [locals_.get(k, ())] returns for a name that is not bound. *)
Definition unset : value := VEmptyTuple.

(** [[locals_.get(k, ()) for k in vars]]. *)
Definition capture (locals_ : gmap string value) (vars : list string)
  : list value :=
  map (fun k => default unset (locals_ !! k)) vars.

(** [self._with_stack], oldest entry first, as the Python list is. *)
Definition with_stack : Type := list (list value).

(** [self._with_stack.append(...)]. *)
Definition _push_with (st : with_stack) (locals_ : gmap string value)
  (vars : list string) : with_stack :=
  (st ++ [capture locals_ vars])%list.

(** [self._with_stack.pop()]: the last entry and the shortened stack;
    [None] is the [IndexError] of an empty list. *)
Definition _pop_with (st : with_stack) : option (list value * with_stack) :=
  match last st with
  | Some top => Some (top, removelast st)
  | None => None
  end.

End WithStack.

(** ** The line table of [from_ir] *)

Module Loader.

(** A line of the generated program: its text and the template line
    [_lineno] it was generated from, if it is annotated. *)
Record py_line : Type := PyLine { line_text : string; _lineno : option Z }.

(** [l._lineno or 0]. *)
Definition lineno_or_0 (l : py_line) : Z :=
  match _lineno l with
  | Some n => if Z.eqb n 0 then 0%Z else n
  | None => 0%Z
  end.

(** [enumerate(py_lines)]. *)
Definition enumerate {A : Type} (l : list A) : list (nat * A) :=
  combine (seq 0 (length l)) l.

(** One turn of the loop over [enumerate(py_lines)]; the state is
    [(py_linenos, last_lineno)]. *)
Definition lineno_step (st : list (nat * Z) * Z) (il : nat * py_line)
  : list (nat * Z) * Z :=
  let lno := Z.max (snd st) (lineno_or_0 (snd il)) in
  ((fst st ++ [(fst il + 1, lno)])%list, lno).

(** [py_linenos] as [from_ir] leaves it. *)
Definition py_linenos (py_lines : list py_line) : list (nat * Z) :=
  fst (fold_left lineno_step (enumerate py_lines) ([], 0%Z)).

(** [dict(py_to_tpl)], the table [annotate_lnotab] hands to every
    exposed function. *)
Definition py_to_tpl_dct (py_lines : list py_line) : gmap nat Z :=
  list_to_map (py_linenos py_lines).

(** The specification's reading: the largest template line seen on the
    first [i] lines of the program, starting from 0. *)
Definition max_seen (py_lines : list py_line) (i : nat) : Z :=
  fold_right Z.max 0%Z (map lineno_or_0 (take i py_lines)).

End Loader.

(** ** [_Template._render_attrs] *)

Module AttrRenderer.

(** [c.lower()] on one character: the ASCII capitals move to their small
    letters, every other byte stays (attribute names are ASCII). *)
Definition lower_char (c : ascii) : ascii :=
  let n := nat_of_ascii c in
  if Nat.leb 65 n && Nat.leb n 90 then ascii_of_nat (n + 32) else c.

(** [k.lower()]. *)
Fixpoint lower (s : string) : string :=
  match s with
  | EmptyString => EmptyString
  | String c s' => String (lower_char c) (lower s')
  end.

(** What the caller passes as [attrs]: [None], an object with [items()]
    (a mapping, given by its items in iteration order), or an iterable of
    [(name, value)] pairs. *)
Inductive attrs_arg : Type :=
| AttrsNone
| AttrsMapping (items : list (string * value))
| AttrsPairs (pairs : list (string * value)).

(** [a < b] on two [(name, value)] tuples: the first position where they
    differ under [==] decides, and tuples equal at both positions are not
    below one another.  [None] is the [TypeError] of [py_lt]. *)
Definition pair_lt (a b : string * value) : option bool :=
  if String.eqb (fst a) (fst b) then
    if py_eq (snd a) (snd b) then Some false else py_lt (snd a) (snd b)
  else Some (String.ltb (fst a) (fst b)).

(** [sorted(attrs)]: Python's sort is ascending, stable and uses [<] only.
    It is modelled as the stable insertion sort below: [x], which comes
    before every element of [l] in the input, is placed after exactly the
    elements that are below it.  The result is [None] when a comparison
    the insertion makes raises. *)
Fixpoint insert_stable (x : string * value) (l : list (string * value))
  : option (list (string * value)) :=
  match l with
  | [] => Some [x]
  | y :: l' =>
      match pair_lt y x with
      | None => None
      | Some true =>
          match insert_stable x l' with
          | Some r => Some (y :: r)
          | None => None
          end
      | Some false => Some (x :: y :: l')
      end
  end.

Fixpoint sorted (l : list (string * value)) : option (list (string * value)) :=
  match l with
  | [] => Some []
  | x :: l' =>
      match sorted l' with
      | Some r => insert_stable x r
      | None => None
      end
  end.

Section WithEmptyAttrs.

(** [HTML_EMPTY_ATTRS] is imported from [kajiki.html_utils]; the renderer
    only tests membership in it. *)
Variable HTML_EMPTY_ATTRS : gset string.

(** [k in HTML_EMPTY_ATTRS]. *)
Definition is_empty_attr (k : string) : bool :=
  bool_decide (k ∈ HTML_EMPTY_ATTRS).

(** [v in (True, False)]. *)
Definition in_true_false (v : value) : bool :=
  py_eq v (VBool true) || py_eq v (VBool false).

(** The first statement of the loop body: the value the attribute is
    rendered with. *)
Definition resolve_value (k : string) (v : value) : value :=
  if is_empty_attr k && in_true_false v then
    (if py_truth v then VStr k else VNone)
  else v.

(** [' %s="%s"' % (k, self._escape(v))]. *)
Definition name_value (k : string) (v : value) : string :=
  " " ++ k ++ "=" ++ String dquote (py_str (Escaper._escape v)
      ++ String dquote EmptyString).

(** The loop body for one pair: the fragment it yields, if any. *)
Definition render_attr (mode : string) (k : string) (v : value)
  : option string :=
  match resolve_value k v with
  | VNone => None
  | v' =>
      if String.prefix "html" mode && is_empty_attr k
      then Some (" " ++ lower k)
      else Some (name_value k v')
  end.

(** [_render_attrs(attrs, mode)]: the fragments the generator yields, in
    order, or [None] when [sorted] raises. *)
Definition _render_attrs (attrs : attrs_arg) (mode : string)
  : option (list string) :=
  match attrs with
  | AttrsNone => Some []
  | AttrsMapping items | AttrsPairs items =>
      match sorted items with
      | Some l => Some (omap (fun kv => render_attr mode (fst kv) (snd kv)) l)
      | None => None
      end
  end.

End WithEmptyAttrs.

(** Sorted by name, each name once. *)
Definition name_lt (a b : string * value) : Prop :=
  String.ltb (fst a) (fst b) = true.

(** [a < b] holds. *)
Definition pair_below (a b : string * value) : Prop :=
  pair_lt a b = Some true.

(** The order [sorted] leaves the pairs in. *)
Definition pair_le (a b : string * value) : Prop :=
  a = b \/ pair_below a b.

(** Any two pairs of [l] are the same pair or one is below the other:
    no comparison raises and no two different pairs compare equal. *)
Definition strictly_ordered (l : list (string * value)) : Prop :=
  forall a b, In a l -> In b l -> a = b \/ pair_below a b \/ pair_below b a.

End AttrRenderer.

(** ** Template instances and [_Template._extend] *)

Module Inheritance.

(** The function a [TplFunc] wraps: the code of a block a template class
    exposes, or the [trampoline] closure [_extend] builds for the name [k]. *)
Inductive func : Type :=
| BlockCode (owner : string) (name : string)
| Trampoline (k : string).

(** [TplFunc(func, inst)].  The cached [_bound_func] is left out: it is
    the function rebuilt over [inst.__globals__], a dictionary that is
    created once per instance and only ever updated in place, so a call
    reads the namespace as it is at the time of the call. *)
Record TplFunc : Type := MkTplFunc { _func : func; _inst : option nat }.

(** What a namespace entry or an attribute holds: a template instance (by
    its identity), a [TplFunc], or any other object. *)
Inductive obj : Type :=
| OInst (i : nat)
| OFunc (f : TplFunc)
| OOther (tag : string).

#[global] Instance func_eq_dec : EqDecision func.
Proof. solve_decision. Defined.
#[global] Instance TplFunc_eq_dec : EqDecision TplFunc.
Proof. solve_decision. Defined.
#[global] Instance obj_eq_dec : EqDecision obj.
Proof. solve_decision. Defined.

(** [isinstance(v, TplFunc)]. *)
Definition is_TplFunc (v : obj) : bool :=
  match v with OFunc _ => true | _ => false end.

(** A template class, as [Template] or [from_ir] leaves it: [__methods__],
    [base_globals] (empty when the class has none) and the attributes a
    lookup on an instance finds on the class ([render], [loader], ...). *)
Record template_class : Type := MkClass {
  cls_name : string;
  __methods__ : list (string * func);
  base_globals : gmap string obj;
  cls_attrs : gmap string obj
}.

(** A template instance: [_context], [__globals__] and its own
    attributes.  [__globals__] is a dictionary of the instance's own.
    [_context] is the caller's dictionary, which the instance keeps by
    reference; the field holds its content, which the operations below
    read and never write, and nothing is stated of the context of an
    instance other than the ones an operation works on. *)
Record instance : Type := MkInstance {
  inst_class : template_class;
  _context : gmap string obj;
  __globals__ : gmap string obj;
  inst_attrs : gmap string obj
}.

Definition set_globals (g : gmap string obj) (i : instance) : instance :=
  MkInstance (inst_class i) (_context i) g (inst_attrs i).

Definition set_attrs (a : gmap string obj) (i : instance) : instance :=
  MkInstance (inst_class i) (_context i) (__globals__ i) a.

(** [getattr(inst, k)]: the instance's own attribute, else the class's;
    [None] is [AttributeError]. *)
Definition getattr (i : instance) (k : string) : option obj :=
  match inst_attrs i !! k with
  | Some v => Some v
  | None => cls_attrs (inst_class i) !! k
  end.

(** [hasattr(inst, k)]. *)
Definition hasattr (i : instance) (k : string) : bool :=
  bool_decide (is_Some (getattr i k)).

(** [func.bind_instance(inst)]. *)
Definition bind_instance (f : func) (inst : nat) : TplFunc :=
  MkTplFunc f (Some inst).

(** The loop of [__init__] over [__methods__]: each function is bound to
    the instance and stored as an attribute and in the namespace. *)
Definition bind_methods (self : nat) (methods : list (string * func))
  (i : instance) : instance :=
  fold_left
    (fun acc kv =>
       let v := OFunc (bind_instance (snd kv) self) in
       set_globals (<[fst kv := v]> (__globals__ acc))
         (set_attrs (<[fst kv := v]> (inst_attrs acc)) acc))
    methods i.

(** [cls(context)], for the instance whose identity is [self]. *)
Definition new_instance (self : nat) (cls : template_class)
  (context : gmap string obj) : instance :=
  let g :=
    <["value_of" := OOther "value_of"]>
    (<["__kj__" := OOther "kajiki"]>
    (<["__builtins__" := OOther "__builtins__"]>
    (<["Markup" := OOther "literal"]>
    (<["literal" := OOther "literal"]>
    (<["defined" := OOther "defined"]>
    (<["self" := OInst self]>
    (<["local" := OInst self]> (base_globals cls)))))))) in
  let a :=
    <["__globals__" := OOther "__globals__"]>
    (<["_context" := OOther "_context"]> ∅) in
  let i := bind_methods self (__methods__ cls) (MkInstance cls context g a) in
  let a' :=
    <["_with_stack" := OOther "_with_stack"]>
    (<["_switch_stack" := OOther "_switch_stack"]>
    (<["__kj__" := OOther "__kj__"]> (inst_attrs i))) in
  set_globals (context ∪ __globals__ i) (set_attrs a' i).

(** The first loop of [_extend]: every [TplFunc] of the child's namespace,
    [__main__] apart, is stored in the parent's. *)
Definition override_step (k : string) (v : obj) (p_globals : gmap string obj)
  : gmap string obj :=
  if String.eqb k "__main__" then p_globals
  else if is_TplFunc v then <[k := v]> p_globals
  else p_globals.

Definition find_overrides (self_globals p_globals : gmap string obj)
  : gmap string obj :=
  map_fold override_step p_globals self_globals.

(** The second loop of [_extend]: every [TplFunc] of the parent's
    namespace, [__main__] apart, is stored in the child's namespace if the
    name is free there, and a trampoline becomes the child's attribute if
    the child has none of that name. *)
Definition inherit_step (self : nat) (k : string) (v : obj) (child : instance)
  : instance :=
  if String.eqb k "__main__" then child
  else if is_TplFunc v then
    let child1 :=
      if bool_decide (is_Some (__globals__ child !! k)) then child
      else set_globals (<[k := v]> (__globals__ child)) child in
    if hasattr child1 k then child1
    else set_attrs
           (<[k := OFunc (bind_instance (Trampoline k) self)]>
              (inst_attrs child1)) child1
  else child.

Definition find_inherited (self : nat) (p_globals : gmap string obj)
  (child : instance) : instance :=
  map_fold (inherit_step self) child p_globals.

(** The instances alive during a render, by identity. *)
Abbreviation heap := (list instance) (only parsing).

(** [self._extend(parent)] for a parent given as a class, on the heap [h]:
    the new heap and the identity of the parent instance it returns.
    [None] is the [KeyError] of [self.__globals__['self']] (or a [self]
    that is not on the heap). *)
Definition _extend (h : heap) (self : nat) (parent : template_class)
  : option (heap * nat) :=
  match h !! self with
  | None => None
  | Some child =>
      let p := length h in
      let p_inst := new_instance p parent (_context child) in
      let p_globals := find_overrides (__globals__ child) (__globals__ p_inst) in
      let child1 := find_inherited self p_globals child in
      let p_globals1 :=
        <["local" := OInst p]> (<["child" := OInst self]> p_globals) in
      match __globals__ child1 !! "self" with
      | None => None
      | Some s =>
          let p_globals2 := <["self" := s]> p_globals1 in
          let self_globals :=
            <["local" := OInst self]>
              (<["parent" := OInst p]> (__globals__ child1)) in
          Some ((<[self := set_globals self_globals child1]> h
                   ++ [set_globals p_globals2 p_inst])%list, p)
      end
  end.

(** The parent argument of [_extend]: a class, or a name the loader
    resolves. *)
Inductive parent_ref : Type :=
| ParentClass (cls : template_class)
| ParentName (name : string).

(** [_extend] with [self.loader.import_] as [import_]; [None] also
    stands for a name the loader does not resolve. *)
Definition _extend_ref (import_ : string -> option template_class)
  (h : heap) (self : nat) (parent : parent_ref) : option (heap * nat) :=
  match parent with
  | ParentClass cls => _extend h self cls
  | ParentName name =>
      match import_ name with
      | Some cls => _extend h self cls
      | None => None
      end
  end.

(** What a call ends up running: the code of block [name] of class
    [owner], over the namespace of instance [globals_of]. *)
Inductive call_target : Type :=
| RunBlock (owner name : string) (globals_of : nat).

(** [TplFunc.__call__] on the heap [h]: a block runs over the namespace of
    the instance it is bound to; a trampoline reads [parent] in that
    namespace, takes the attribute [k] of the instance found there and
    calls it.  [fuel] bounds the chain of trampolines; [None] is an
    exception or a chain longer than [fuel]. *)
Fixpoint call (fuel : nat) (h : heap) (f : TplFunc) : option call_target :=
  match fuel with
  | O => None
  | S fuel' =>
      match _inst f with
      | None => None
      | Some i =>
          match h !! i with
          | None => None
          | Some inst =>
              match _func f with
              | BlockCode owner name => Some (RunBlock owner name i)
              | Trampoline k =>
                  match __globals__ inst !! "parent" with
                  | Some (OInst p) =>
                      match h !! p with
                      | Some p_inst =>
                          match getattr p_inst k with
                          | Some (OFunc f') => call fuel' h f'
                          | _ => None
                          end
                      | None => None
                      end
                  | _ => None
                  end
              end
          end
      end
  end.

(** The body of the block running over the namespace of instance [i]
    calls the name [k]. *)
Definition call_name (fuel : nat) (h : heap) (i : nat) (k : string)
  : option call_target :=
  match h !! i with
  | Some inst =>
      match __globals__ inst !! k with
      | Some (OFunc f) => call fuel h f
      | _ => None
      end
  | None => None
  end.

(** The attribute the trampoline for [k], bound to [self], fetches with
    [getattr(parent, k)] when it is called on the heap [h]. *)
Definition trampoline_forward (h : heap) (self : nat) (k : string)
  : option obj :=
  match h !! self with
  | Some inst =>
      match __globals__ inst !! "parent" with
      | Some (OInst p) =>
          match h !! p with
          | Some p_inst => getattr p_inst k
          | None => None
          end
      | _ => None
      end
  | None => None
  end.

(** What the second loop stores under [k] when the name is free: in the
    namespace, and as an attribute. *)
Definition inherited_entry (p_globals : gmap string obj) (k : string)
  : option obj :=
  match p_globals !! k with
  | Some v =>
      if String.eqb k "__main__" then None
      else if is_TplFunc v then Some v else None
  | None => None
  end.

Definition inherited_attr (self : nat) (cls : template_class)
  (p_globals : gmap string obj) (k : string) : option obj :=
  match inherited_entry p_globals k with
  | Some _ =>
      match cls_attrs cls !! k with
      | Some _ => None
      | None => Some (OFunc (bind_instance (Trampoline k) self))
      end
  | None => None
  end.


(** What [__init__] guarantees of every instance and [_extend] keeps:
    [self] and [local] are bound in the namespace. *)
Definition wf_instance (i : instance) : Prop :=
  is_Some (__globals__ i !! "self") /\ is_Some (__globals__ i !! "local").

(** The attributes every template class has: those [_Template] defines
    and those of [object]. *)
Definition template_attr_names : list string :=
  ["__methods__"; "loader"; "base_globals"; "filename"; "__init__";
   "__iter__"; "render"; "_push_with"; "_pop_with"; "_extend";
   "_push_switch"; "_pop_switch"; "_case"; "_import"; "_escape";
   "_re_escape"; "_render_attrs"; "_collect"; "annotate_lnotab"; "defined";
   "__class__"; "__dict__"; "__doc__"; "__module__"; "__weakref__";
   "__new__"; "__repr__"; "__str__"; "__hash__"; "__eq__"; "__ne__";
   "__lt__"; "__le__"; "__gt__"; "__ge__"; "__getattribute__";
   "__setattr__"; "__delattr__"; "__reduce__"; "__reduce_ex__";
   "__sizeof__"; "__subclasshook__"; "__format__"; "__dir__";
   "__init_subclass__"; "__getstate__"].

Definition template_attrs : gmap string obj :=
  list_to_map (map (fun n => (n, OOther n)) template_attr_names).

(** [Template(ns)] for a namespace object called [name] that exposes the
    blocks [blocks]: a class without [base_globals]. *)
Definition Template (name : string) (blocks : list string) : template_class :=
  MkClass name (map (fun b => (b, BlockCode name b)) blocks) ∅ template_attrs.

(** Templates used below: a layout with a header and a footer, a page that
    overrides the header, an article that extends the page, and two
    templates with a block called like one of the names [_extend] binds. *)
Definition Layout : template_class :=
  Template "Layout" ["__main__"; "header"; "footer"].
Definition Page : template_class := Template "Page" ["__main__"; "header"].
Definition Article : template_class := Template "Article" ["__main__"].
Definition ChildBlock : template_class :=
  Template "ChildBlock" ["__main__"; "child"].
Definition ParentBlock : template_class :=
  Template "ParentBlock" ["__main__"; "parent"].

End Inheritance.

(** ** The switch stack: [_push_switch], [_pop_switch], [_case] *)

Module SwitchStack.

(** [self._switch_stack], oldest entry first. *)
Abbreviation switch_stack := (list value) (only parsing).

(** [self._switch_stack.append(expr)]. *)
Definition _push_switch (st : switch_stack) (expr : value) : switch_stack :=
  (st ++ [expr])%list.

(** [self._switch_stack.pop()], whose result is dropped; [None] is the
    [IndexError] of an empty list. *)
Definition _pop_switch (st : switch_stack) : option switch_stack :=
  match last st with
  | Some _ => Some (removelast st)
  | None => None
  end.

(** [obj == self._switch_stack[-1]]; [None] is the [IndexError] of an
    empty list. *)
Definition _case (st : switch_stack) (obj : value) : option bool :=
  match last st with
  | Some top => Some (py_eq obj top)
  | None => None
  end.

End SwitchStack.

(** ** [__iter__] and [render] *)

Module Render.

(** [__iter__], for the chunks it receives from [self.__main__()], that
    is, the chunks as they come out of the flattener the exposed function
    wraps its body in: each chunk as text. *)
Definition iter_chunks (chunks : list value) : list string :=
  map py_str chunks.

(** [render()]: [''.join(self)]. *)
Definition render (chunks : list value) : string :=
  Collect.join (iter_chunks chunks).

End Render.

(** ** [TplFunc.annotate_lnotab] *)

Module Lnotab.

(** One turn of the loop over the pairs [(bc_off, py_lno)] that
    [lnotab.lnotab_numbers] reads from the code object: a line the table
    knows is appended with its template line, any other is skipped. *)
Definition remap_step (py_to_tpl_dct : gmap nat Z) (acc : list (nat * Z))
  (entry : nat * nat) : list (nat * Z) :=
  match py_to_tpl_dct !! snd entry with
  | None => acc
  | Some tpl_lno => (acc ++ [(fst entry, tpl_lno)])%list
  end.

(** [new_lnotab_numbers] once the loop is over. *)
Definition new_lnotab_numbers (py_to_tpl_dct : gmap nat Z)
  (numbers : list (nat * nat)) : list (nat * Z) :=
  fold_left (remap_step py_to_tpl_dct) numbers [].

(** [annotate_lnotab(filename, py_to_tpl, py_to_tpl_dct)] on a function
    whose code starts at line [co_firstlineno] and whose line table reads
    as [numbers]: the file name, first line and line numbers the code is
    patched with, or [None] when the function is left as it is. *)
Definition annotate_lnotab (filename : string) (py_to_tpl : list (nat * Z))
  (py_to_tpl_dct : gmap nat Z) (co_firstlineno : nat)
  (numbers : list (nat * nat)) : option (string * Z * list (nat * Z)) :=
  match py_to_tpl with
  | [] => None
  | _ =>
      match new_lnotab_numbers py_to_tpl_dct numbers with
      | [] => None
      | new =>
          Some (filename, default 0%Z (py_to_tpl_dct !! co_firstlineno), new)
      end
  end.

(** [meth.annotate_lnotab(cls.filename, py_to_tpl, dict(py_to_tpl))], as
    [_Template.annotate_lnotab] calls it for every method, with the table
    [from_ir] computed for the program [py_lines]. *)
Definition annotate_from_ir (filename : string)
  (py_lines : list Loader.py_line) (co_firstlineno : nat)
  (numbers : list (nat * nat)) : option (string * Z * list (nat * Z)) :=
  annotate_lnotab filename (Loader.py_linenos py_lines)
    (Loader.py_to_tpl_dct py_lines) co_firstlineno numbers.

End Lnotab.

(** ** [KajikiSyntaxError] *)

Module Diagnostics.

Definition tab : ascii := "009"%char.
Definition newline : ascii := "010"%char.

Section WithSplitlines.

(** [str.splitlines] of the Python runtime. *)
Variable splitlines : string -> list string.

(** [_get_source_line(source, linen)]: the empty text for a negative
    index and for an index past the last line. *)
Definition _get_source_line (source : string) (linen : Z) : string :=
  if Z.ltb linen 0 then EmptyString
  else
    match splitlines source !! Z.to_nat linen with
    | Some l => l
    | None => EmptyString
    end.

(** ['\t     %s\n' % line] and ['\t --> %s\n' % line]. *)
Definition plain_row (line : string) : string :=
  String tab ("     " ++ line ++ String newline EmptyString).
Definition marked_row (line : string) : string :=
  String tab (" --> " ++ line ++ String newline EmptyString).

(** [_get_source_snippet(source, linen)], with [SURROUNDING = 2]. *)
Definition _get_source_snippet (source : string) (linen : Z) : string :=
  let linen := (linen - 1)%Z in
  Collect.join
    ((map (fun i => plain_row (_get_source_line source (linen - i)))
        [2%Z; 1%Z])
     ++ [marked_row (_get_source_line source linen)]
     ++ map (fun i => plain_row (_get_source_line source (linen + i)))
          [1%Z; 2%Z])%list.

End WithSplitlines.

End Diagnostics.

(** ** [_Template._import] and [_Template.defined] *)

Module Importer.
Import Inheritance.

(** The loader of the template class, of which the runtime uses
    [import_] and [default_alias_for]. *)
Record loader : Type := MkLoader {
  import_ : string -> option template_class;
  default_alias_for : string -> string
}.

Definition set_context (c : gmap string obj) (i : instance) : instance :=
  MkInstance (inst_class i) c (__globals__ i) (inst_attrs i).

(** The dictionary passed as [gbls]: the namespace of an instance of the
    heap, or a dictionary that is no instance's namespace, given by its
    content. *)
Inductive gbls_ref : Type :=
| GlobalsOf (owner : nat)
| OtherDict (content : gmap string obj).

(** The content of [gbls] on the heap [h]. *)
Definition gbls_content (h : heap) (gbls : gbls_ref)
  : option (gmap string obj) :=
  match gbls with
  | GlobalsOf owner =>
      match h !! owner with
      | Some i => Some (__globals__ i)
      | None => None
      end
  | OtherDict content => Some content
  end.

(** [gbls[alias] = r], written in place: when [gbls] is the namespace of
    an instance, that instance has the new entry. *)
Definition gbls_bind (h : heap) (gbls : gbls_ref) (alias : string) (r : nat)
  : heap :=
  match gbls with
  | GlobalsOf owner =>
      match h !! owner with
      | Some i =>
          <[owner := set_globals (<[alias := OInst r]> (__globals__ i)) i]> h
      | None => h
      end
  | OtherDict _ => h
  end.

(** [self._import(name, alias, gbls)] on the heap [h]: the new heap, the
    content of [gbls] once the alias is bound, and the identity of the new
    instance.  The instance is built with [gbls] as its context, before
    the alias is bound; it keeps the dictionary itself, so when [_import]
    returns its context shows the alias.  [None] stands for a name the
    loader does not resolve (or a [gbls] that is not on the heap). *)
Definition _import (ld : loader) (h : heap) (name : string)
  (alias : option string) (gbls : gbls_ref)
  : option (heap * gmap string obj * nat) :=
  match import_ ld name with
  | None => None
  | Some tpl_cls =>
      match gbls_content h gbls with
      | None => None
      | Some content =>
          let alias :=
            match alias with
            | Some a => a
            | None => default_alias_for ld name
            end in
          let r := length h in
          let content' := <[alias := OInst r]> content in
          Some ((gbls_bind h gbls alias r
                   ++ [set_context content' (new_instance r tpl_cls content)])%list,
                content', r)
      end
  end.

(** [self.defined(name)]: [name in self._context]. *)
Definition defined (i : instance) (name : string) : bool :=
  bool_decide (is_Some (_context i !! name)).

(** The [defined] of the namespace: [x in self.__globals__]. *)
Definition defined_global (i : instance) (x : string) : bool :=
  bool_decide (is_Some (__globals__ i !! x)).

(** A name of the context is a name of the namespace. *)
Definition context_visible (i : instance) : Prop :=
  forall k, defined i k = true -> defined_global i k = true.

End Importer.


(** * Properties *)

(** ** The escaper *)

Section EscaperFacts.
Import Escaper.

Lemma append_assoc (a b c : string) : (a ++ b) ++ c = a ++ (b ++ c).
Proof.
  induction a as [|x a IH]; cbn [String.append]; [reflexivity | now f_equal].
Qed.

Lemma replace_app (old : ascii) (new a b : string) :
  replace old new (a ++ b) = replace old new a ++ replace old new b.
Proof.
  induction a as [|x a IH]; cbn [replace String.append]; [reflexivity |].
  destruct (Ascii.eqb x old); cbn [String.append]; rewrite IH; [| reflexivity].
  symmetry. apply append_assoc.
Qed.

(** The four replacements in the order of the source. *)
Lemma sequential_cons (c : ascii) (s : string) :
  replace dquote "&quot;"
    (replace ">" "&gt;" (replace "<" "&lt;" (replace "&" "&amp;" (String c s))))
  = entity c ++
    replace dquote "&quot;"
      (replace ">" "&gt;" (replace "<" "&lt;" (replace "&" "&amp;" s))).
Proof.
  unfold entity. cbn [replace].
  destruct (Ascii.eqb_spec c "&") as [->|Hamp].
  { rewrite !replace_app. reflexivity. }
  cbn [replace].
  destruct (Ascii.eqb_spec c "<") as [->|Hlt].
  { rewrite !replace_app. reflexivity. }
  cbn [replace].
  destruct (Ascii.eqb_spec c ">") as [->|Hgt].
  { rewrite !replace_app. reflexivity. }
  cbn [replace].
  destruct (Ascii.eqb_spec c dquote) as [->|Hdq]; reflexivity.
Qed.

Lemma sequential_single_pass (s : string) :
  replace dquote "&quot;"
    (replace ">" "&gt;" (replace "<" "&lt;" (replace "&" "&amp;" s)))
  = single_pass s.
Proof.
  induction s as [|c s IH]; [reflexivity |].
  rewrite sequential_cons, IH. reflexivity.
Qed.

Lemma entity_plain (c : ascii) :
  re_escape_char c = false -> entity c = String c EmptyString.
Proof.
  unfold re_escape_char, entity. intros H.
  repeat (apply orb_false_elim in H; destruct H as [H ?]).
  now repeat match goal with E : Ascii.eqb _ _ = false |- _ => rewrite E; clear E end.
Qed.

Lemma single_pass_plain (s : string) :
  re_escape_search s = false -> single_pass s = s.
Proof.
  induction s as [|c s IH]; simpl; [reflexivity |].
  intros H. apply orb_false_elim in H as [Hc Hs].
  rewrite (entity_plain c Hc), (IH Hs). reflexivity.
Qed.

Lemma escape_text_single_pass (s : string) : escape_text s = single_pass s.
Proof.
  unfold escape_text. destruct (re_escape_search s) eqn:E.
  - apply sequential_single_pass.
  - symmetry. now apply single_pass_plain.
Qed.

Lemma re_escape_char_spec (c : ascii) :
  re_escape_char c = false <->
  c <> "&"%char /\ c <> "<"%char /\ c <> ">"%char /\ c <> dquote.
Proof.
  unfold re_escape_char.
  destruct (Ascii.eqb_spec c "&"), (Ascii.eqb_spec c "<"),
    (Ascii.eqb_spec c ">"), (Ascii.eqb_spec c dquote); simpl;
    intuition congruence.
Qed.

Lemma re_escape_search_spec (s : string) :
  re_escape_search s = false <->
  (forall c, In c (list_ascii_of_string s) ->
     c <> "&"%char /\ c <> "<"%char /\ c <> ">"%char /\ c <> dquote).
Proof.
  induction s as [|c s IH]; simpl.
  - split; [intros _ ? [] | reflexivity].
  - rewrite orb_false_iff, IH, re_escape_char_spec. split.
    + intros [Hc Hs] d [<-|Hd]; auto.
    + intros H. split; [apply H; now left | intros d Hd; apply H; now right].
Qed.

Lemma string_length_app (a b : string) :
  String.length (a ++ b) = String.length a + String.length b.
Proof. induction a as [|x a IH]; simpl; [reflexivity | now rewrite IH]. Qed.

Lemma entity_length (c : ascii) :
  (re_escape_char c = false /\ String.length (entity c) = 1) \/
  (re_escape_char c = true /\ 1 < String.length (entity c)).
Proof.
  unfold re_escape_char, entity.
  destruct (Ascii.eqb c "&"); [right; simpl; split; [reflexivity | lia] |].
  destruct (Ascii.eqb c "<"); [right; simpl; split; [reflexivity | lia] |].
  destruct (Ascii.eqb c ">"); [right; simpl; split; [reflexivity | lia] |].
  destruct (Ascii.eqb c dquote); [right; simpl; split; [reflexivity | lia] |].
  left. split; reflexivity.
Qed.

Lemma single_pass_length (s : string) :
  String.length s <= String.length (single_pass s) /\
  (re_escape_search s = true -> String.length s < String.length (single_pass s)).
Proof.
  induction s as [|c s [IH1 IH2]]; simpl.
  - split; [lia | discriminate].
  - rewrite string_length_app.
    destruct (entity_length c) as [[-> ->]|[-> Hc]]; simpl.
    + split; [lia | intros H; specialize (IH2 H); lia].
    + split; [lia | intros _; lia].
Qed.

(** C3.  [escape] hands [None] back as it is; on a text it is the
    one-pass substitution of the four entities, which is the four
    replacements taken in the source's order whenever one of the four
    characters occurs; a text is returned unchanged exactly when it holds
    none of the four; the single quote is not among them; and the
    ampersand of an already escaped [&amp;] is escaped again. *)
Theorem escape_policy (s : string) :
  _escape VNone = VNone /\
  _escape (VStr s) = VStr (single_pass s) /\
  ((forall c, In c (list_ascii_of_string s) ->
      c <> "&"%char /\ c <> "<"%char /\ c <> ">"%char /\ c <> dquote)
   <-> _escape (VStr s) = VStr s) /\
  (re_escape_search s = true ->
   _escape (VStr s) =
   VStr (replace dquote "&quot;"
           (replace ">" "&gt;" (replace "<" "&lt;" (replace "&" "&amp;" s))))) /\
  entity "'" = "'" /\
  _escape (VStr "it's") = VStr "it's" /\
  _escape (VStr "&amp;") = VStr "&amp;amp;".
Proof.
  split; [reflexivity |].
  split; [simpl; now rewrite escape_text_single_pass |].
  split.
  { rewrite <- re_escape_search_spec. simpl. split.
    - intros H. unfold escape_text. now rewrite H.
    - intros H. destruct (re_escape_search s) eqn:E; [| reflexivity].
      exfalso. injection H as H. rewrite escape_text_single_pass in H.
      pose proof (proj2 (single_pass_length s) E) as Hlen.
      rewrite H in Hlen. lia. }
  split.
  { intros H. simpl. unfold escape_text. now rewrite H. }
  repeat split; reflexivity.
Qed.

(** The statement at a text that holds the four characters and a single
    quote. *)
Lemma escape_policy_witness :
  re_escape_search ("<a href=" ++ String dquote "x'&y>") = true /\
  _escape (VStr ("<a href=" ++ String dquote "x'&y>"))
  = VStr "&lt;a href=&quot;x'&amp;y&gt;".
Proof.
  split; [reflexivity |].
  destruct (escape_policy ("<a href=" ++ String dquote "x'&y>"))
    as (_ & _ & _ & H & _).
  rewrite H; reflexivity.
Defined.

End EscaperFacts.

(** ** Collect *)

Section CollectFacts.
Import Collect.

Lemma collect_loop_from (it : list value) (acc : list string) :
  fold_left
    (fun result part =>
       match part with
       | VNone => result
       | _ => (result ++ [py_str part])%list
       end)
    it acc
  = (acc ++ fragments it)%list.
Proof.
  revert acc. induction it as [|part it IH]; intros acc.
  - simpl. now rewrite app_nil_r.
  - cbn [fold_left]. rewrite IH. unfold fragments.
    destruct part; cbn [List.filter present map];
      rewrite <- ?app_assoc; reflexivity.
Qed.

Lemma collect_loop_fragments (it : list value) :
  collect_loop it = fragments it.
Proof. unfold collect_loop. now rewrite collect_loop_from. Qed.

(** C6.  [collect] is [None] exactly when no part is left once the
    [None] parts are dropped, and is otherwise the texts of the remaining
    parts joined in order; an empty text is a part like any other, so a
    lone empty text gives the empty text and not [None]. *)
Theorem collect_three_valued (it : list value) :
  (_collect it = VNone <-> fragments it = []) /\
  (fragments it <> [] -> _collect it = VStr (join (fragments it))) /\
  (forall s, _collect it <> VStr s \/ fragments it <> []) /\
  _collect [] = VNone /\
  _collect [VNone; VNone] = VNone /\
  _collect [VStr EmptyString] = VStr EmptyString /\
  _collect [VStr "a"; VNone; VStr "b"] = VStr "ab".
Proof.
  unfold _collect. rewrite collect_loop_fragments.
  split; [| split; [| split]].
  - destruct (fragments it); split; congruence.
  - destruct (fragments it); congruence.
  - intros s. destruct (fragments it); [left | right]; congruence.
  - repeat split; reflexivity.
Qed.

(** The statement at a sequence with parts of several kinds. *)
Lemma collect_three_valued_witness :
  _collect [VInt 4; VNone; VStr EmptyString; VBool true] = VStr "4True".
Proof.
  destruct (collect_three_valued [VInt 4; VNone; VStr EmptyString; VBool true])
    as (_ & H & _).
  rewrite H; [reflexivity | discriminate].
Defined.

End CollectFacts.

(** ** The with-scope stack *)

Section WithStackFacts.
Import WithStack.

Lemma last_snoc_some {A : Type} (l : list A) (x : A) :
  last (l ++ [x])%list = Some x.
Proof. apply last_snoc. Qed.

Lemma pop_push (st : with_stack) (top : list value) :
  _pop_with (st ++ [top])%list = Some (top, st).
Proof.
  unfold _pop_with. rewrite last_snoc_some. now rewrite removelast_last.
Qed.

Lemma capture_lookup (locals_ : gmap string value) (vars : list string)
  (i : nat) (k : string) :
  vars !! i = Some k ->
  capture locals_ vars !! i = Some (default unset (locals_ !! k)).
Proof.
  intros H. unfold capture. change map with (@fmap list _).
  rewrite list_lookup_fmap, H. reflexivity.
Qed.

(** C7.  A push followed at once by a pop gives back the captured list and
    the stack as it was; the captured list has one entry per name, in the
    order of the names: the value the snapshot binds to the name, or the
    unset marker when it binds none. *)
Theorem push_pop_with (st : with_stack) (locals_ : gmap string value)
  (vars : list string) :
  _pop_with (_push_with st locals_ vars) = Some (capture locals_ vars, st) /\
  length (capture locals_ vars) = length vars /\
  (forall i k, vars !! i = Some k ->
     capture locals_ vars !! i =
     Some (match locals_ !! k with Some v => v | None => unset end)) /\
  _pop_with (_push_with [] {["x" := VInt 5]} ["x"]) = Some ([VInt 5], []) /\
  _pop_with (_push_with [] ∅ ["x"]) = Some ([unset], []).
Proof.
  split; [apply pop_push |].
  split; [apply length_map |].
  split.
  { intros i k H. rewrite (capture_lookup _ _ _ _ H).
    now destruct (locals_ !! k). }
  split; unfold _push_with; rewrite pop_push; reflexivity.
Qed.

(** The statement on a stack that already holds a scope, with one name
    bound and one not. *)
Lemma push_pop_with_witness :
  _pop_with (_push_with [[VStr "outer"]] {["x" := VInt 5]} ["y"; "x"])
  = Some ([unset; VInt 5], [[VStr "outer"]]) /\
  capture {["x" := VInt 5]} ["y"; "x"] !! 1 = Some (VInt 5).
Proof.
  destruct (push_pop_with [[VStr "outer"]] {["x" := VInt 5]} ["y"; "x"])
    as (H1 & _ & H3 & _).
  split.
  - rewrite H1. reflexivity.
  - rewrite (H3 1 "x" eq_refl). reflexivity.
Defined.



End WithStackFacts.

(** ** The line table *)

Section LoaderFacts.
Import Loader.
Local Open Scope Z_scope.

Lemma max_seen_0 (py_lines : list py_line) : max_seen py_lines 0 = 0.
Proof. unfold max_seen. now rewrite take_0. Qed.

Lemma max_seen_nil (i : nat) : max_seen [] i = 0.
Proof. unfold max_seen. now rewrite take_nil. Qed.

Lemma max_seen_cons (l : py_line) (py_lines : list py_line) (i : nat) :
  max_seen (l :: py_lines) (S i) = Z.max (lineno_or_0 l) (max_seen py_lines i).
Proof. reflexivity. Qed.

Lemma max_seen_nonneg (py_lines : list py_line) (i : nat) :
  0 <= max_seen py_lines i.
Proof.
  revert i. induction py_lines as [|l ls IH]; intros i.
  - rewrite max_seen_nil. lia.
  - destruct i; [rewrite max_seen_0; lia |].
    rewrite max_seen_cons. specialize (IH i). lia.
Qed.

Lemma max_seen_mono (py_lines : list py_line) (i j : nat) :
  (i <= j)%nat -> max_seen py_lines i <= max_seen py_lines j.
Proof.
  revert i j. induction py_lines as [|l ls IH]; intros i j Hij.
  - rewrite !max_seen_nil. lia.
  - destruct i.
    + rewrite max_seen_0. apply max_seen_nonneg.
    + destruct j; [lia |]. rewrite !max_seen_cons.
      specialize (IH i j ltac:(lia)). lia.
Qed.

Lemma max_seen_upper (py_lines : list py_line) (i j : nat) (l : py_line) :
  (j < i)%nat -> py_lines !! j = Some l -> lineno_or_0 l <= max_seen py_lines i.
Proof.
  revert i j. induction py_lines as [|l0 ls IH]; intros i j Hji Hl.
  - discriminate.
  - destruct i; [lia |]. rewrite max_seen_cons. destruct j.
    + injection Hl as ->. lia.
    + specialize (IH i j ltac:(lia) Hl). lia.
Qed.

Lemma max_seen_attained (py_lines : list py_line) (i : nat) :
  max_seen py_lines i = 0 \/
  exists j l, (j < i)%nat /\ py_lines !! j = Some l /\
              lineno_or_0 l = max_seen py_lines i.
Proof.
  revert i. induction py_lines as [|l0 ls IH]; intros i.
  - left. apply max_seen_nil.
  - destruct i; [left; apply max_seen_0 |]. rewrite max_seen_cons.
    destruct (Z.max_spec (lineno_or_0 l0) (max_seen ls i)) as [[_ ->]|[_ ->]].
    + destruct (IH i) as [E|(j & l & Hj & Hl & E)]; [now left |].
      right. exists (S j), l. split; [lia | now split].
    + right. exists 0%nat, l0. split; [lia | now split].
Qed.

Lemma lineno_or_0_some (l : py_line) (n : Z) :
  _lineno l = Some n -> lineno_or_0 l = n.
Proof.
  unfold lineno_or_0. intros ->. destruct (Z.eqb_spec n 0); congruence.
Qed.

Lemma lineno_or_0_none (l : py_line) : _lineno l = None -> lineno_or_0 l = 0.
Proof. unfold lineno_or_0. now intros ->. Qed.

Lemma lineno_or_0_inv (l : py_line) :
  lineno_or_0 l <> 0 -> _lineno l = Some (lineno_or_0 l).
Proof.
  unfold lineno_or_0. destruct (_lineno l) as [n|]; [| congruence].
  destruct (Z.eqb_spec n 0); congruence.
Qed.

(** The loop, started anywhere: at line number [start], with [acc]
    already written and [last] the running value. *)
Lemma lineno_loop (py_lines : list py_line) (start : nat)
  (acc : list (nat * Z)) (last : Z) :
  0 <= last ->
  fold_left lineno_step (combine (seq start (length py_lines)) py_lines)
    (acc, last)
  = ((acc ++ map (fun j => ((start + j + 1)%nat,
                            Z.max last (max_seen py_lines (S j))))
               (seq 0 (length py_lines)))%list,
     Z.max last (max_seen py_lines (length py_lines))).
Proof.
  revert start acc last.
  induction py_lines as [|l ls IH]; intros start acc last Hlast.
  - cbn [length seq combine fold_left map]. rewrite app_nil_r. f_equal.
    rewrite max_seen_nil. lia.
  - cbn [length seq combine fold_left]. unfold lineno_step at 2.
    cbn [fst snd]. rewrite IH by lia. rewrite <- app_assoc. f_equal.
    + f_equal. cbn [app map]. f_equal.
      * f_equal; [lia |]. rewrite max_seen_cons, max_seen_0. lia.
      * rewrite <- seq_shift, map_map. apply map_ext. intros j.
        f_equal; [lia |]. rewrite (max_seen_cons l ls (S j)). lia.
    + rewrite (max_seen_cons l ls (length ls)). lia.
Qed.

Lemma py_linenos_closed (py_lines : list py_line) :
  py_linenos py_lines
  = map (fun j => ((j + 1)%nat, max_seen py_lines (S j)))
      (seq 0 (length py_lines)).
Proof.
  unfold py_linenos, enumerate. rewrite lineno_loop by lia. cbn [fst app].
  apply map_ext. intros j. f_equal.
  pose proof (max_seen_nonneg py_lines (S j)). lia.
Qed.

Lemma py_linenos_lookup (py_lines : list py_line) (i : nat) :
  (i < length py_lines)%nat ->
  py_linenos py_lines !! i = Some ((i + 1)%nat, max_seen py_lines (i + 1)).
Proof.
  intros Hi. rewrite py_linenos_closed. change map with (@fmap list _).
  rewrite list_lookup_fmap.
  rewrite lookup_seq_lt by exact Hi. cbn. do 3 f_equal. lia.
Qed.

Lemma py_linenos_keys (py_lines : list py_line) :
  NoDup (map fst (py_linenos py_lines)).
Proof.
  rewrite py_linenos_closed, map_map. cbn [fst].
  apply NoDup_fmap_2_strong.
  - intros x y _ _ H. lia.
  - apply NoDup_seq.
Qed.

(** C8.  Line [i + 1] of the generated program is mapped to the largest
    template line met on lines 1 to [i + 1], counted from 0: that value
    bounds every annotation up to there and is 0 or one of them; a line
    without annotation keeps the value of the line before; and the mapped
    values never decrease along the program. *)
Theorem remap_running_max (py_lines : list py_line) :
  length (py_linenos py_lines) = length py_lines /\
  (forall i, (i < length py_lines)%nat ->
     py_linenos py_lines !! i = Some ((i + 1)%nat, max_seen py_lines (i + 1)) /\
     py_to_tpl_dct py_lines !! (i + 1)%nat = Some (max_seen py_lines (i + 1))) /\
  (forall i j l n, (j < i)%nat -> py_lines !! j = Some l ->
     _lineno l = Some n -> n <= max_seen py_lines i) /\
  (forall i, max_seen py_lines i = 0 \/
     exists j l, (j < i)%nat /\ py_lines !! j = Some l /\
                 _lineno l = Some (max_seen py_lines i)) /\
  (forall i l, py_lines !! i = Some l -> _lineno l = None ->
     max_seen py_lines (S i) = max_seen py_lines i) /\
  (forall i j a b, (i <= j)%nat ->
     py_linenos py_lines !! i = Some a -> py_linenos py_lines !! j = Some b ->
     snd a <= snd b).
Proof.
  split.
  { rewrite py_linenos_closed, length_map. apply length_seq. }
  split.
  { intros i Hi. split; [now apply py_linenos_lookup |].
    unfold py_to_tpl_dct. apply elem_of_list_to_map.
    - apply py_linenos_keys.
    - apply list_elem_of_lookup. exists i. now apply py_linenos_lookup. }
  split.
  { intros i j l n Hji Hl Hn. rewrite <- (lineno_or_0_some l n Hn).
    now apply (max_seen_upper py_lines i j). }
  split.
  { intros i. destruct (max_seen_attained py_lines i)
      as [E|(j & l & Hj & Hl & E)]; [now left |].
    destruct (Z.eq_dec (max_seen py_lines i) 0) as [Z0|NZ]; [now left |].
    right. exists j, l. split; [exact Hj |]. split; [exact Hl |].
    rewrite <- E. apply lineno_or_0_inv. congruence. }
  split.
  { intros i l Hl Hn. revert i Hl.
    induction py_lines as [|l0 ls IH]; intros i Hl; [discriminate |].
    destruct i.
    - injection Hl as ->. rewrite max_seen_cons, !max_seen_0.
      rewrite (lineno_or_0_none l Hn). reflexivity.
    - rewrite !max_seen_cons. now rewrite (IH i Hl). }
  intros i j a b Hij Ha Hb.
  assert (j < length py_lines)%nat as Hj.
  { apply lookup_lt_Some in Hb.
    rewrite py_linenos_closed, length_map, length_seq in Hb. exact Hb. }
  rewrite py_linenos_lookup in Ha by lia.
  rewrite py_linenos_lookup in Hb by lia.
  injection Ha as <-. injection Hb as <-. cbn [snd].
  apply max_seen_mono. lia.
Qed.

(** The statement on a program of five lines annotated 3, -, 2, 7, -. *)
Lemma remap_running_max_witness :
  py_linenos [PyLine "a" (Some 3); PyLine "b" None; PyLine "c" (Some 2);
              PyLine "d" (Some 7); PyLine "e" None]
  = [(1%nat, 3); (2%nat, 3); (3%nat, 3); (4%nat, 7); (5%nat, 7)] /\
  2 <= max_seen [PyLine "a" (Some 3); PyLine "b" None; PyLine "c" (Some 2);
                 PyLine "d" (Some 7); PyLine "e" None] 3.
Proof.
  split; [reflexivity |].
  destruct (remap_running_max
              [PyLine "a" (Some 3); PyLine "b" None; PyLine "c" (Some 2);
               PyLine "d" (Some 7); PyLine "e" None])
    as (_ & _ & H & _).
  apply (H 3%nat 2%nat (PyLine "c" (Some 2)) 2); [lia | reflexivity..].
Defined.

End LoaderFacts.

(** ** The attribute renderer *)

Section StringOrder.

Lemma ascii_compare_refl (a : ascii) : Ascii.compare a a = Eq.
Proof. unfold Ascii.compare. apply N.compare_refl. Qed.

Lemma ascii_compare_lt_trans (a b c : ascii) :
  Ascii.compare a b = Lt -> Ascii.compare b c = Lt -> Ascii.compare a c = Lt.
Proof.
  unfold Ascii.compare. rewrite !N.compare_lt_iff. lia.
Qed.

Lemma string_compare_refl (s : string) : String.compare s s = Eq.
Proof.
  induction s as [|a s IH]; [reflexivity |].
  cbn [String.compare]. now rewrite ascii_compare_refl.
Qed.

Lemma string_compare_lt_trans (s t u : string) :
  String.compare s t = Lt -> String.compare t u = Lt -> String.compare s u = Lt.
Proof.
  revert t u. induction s as [|a s IH]; intros [|b t] [|c u];
    cbn [String.compare]; try congruence.
  destruct (Ascii.compare a b) eqn:Eab; try discriminate;
    destruct (Ascii.compare b c) eqn:Ebc; try discriminate; intros Hst Htu.
  - apply Ascii.compare_eq_iff in Eab, Ebc. subst.
    rewrite ascii_compare_refl. now apply (IH t u).
  - apply Ascii.compare_eq_iff in Eab. subst. now rewrite Ebc.
  - apply Ascii.compare_eq_iff in Ebc. subst. now rewrite Eab.
  - now rewrite (ascii_compare_lt_trans a b c Eab Ebc).
Qed.

Lemma string_ltb_irrefl (s : string) : String.ltb s s = false.
Proof. unfold String.ltb. now rewrite string_compare_refl. Qed.

Lemma string_ltb_trans (s t u : string) :
  String.ltb s t = true -> String.ltb t u = true -> String.ltb s u = true.
Proof.
  unfold String.ltb. intros Hst Htu.
  destruct (String.compare s t) eqn:Est; try discriminate.
  destruct (String.compare t u) eqn:Etu; try discriminate.
  now rewrite (string_compare_lt_trans s t u Est Etu).
Qed.

Lemma string_ltb_total (s t : string) :
  s <> t -> String.ltb s t = false -> String.ltb t s = true.
Proof.
  unfold String.ltb. intros Hne. rewrite (String.compare_antisym t s).
  destruct (String.compare s t) eqn:E; cbn; try congruence.
  apply String.compare_eq_iff in E. contradiction.
Qed.

Lemma string_ltb_asym (s t : string) :
  String.ltb s t = true -> String.ltb t s = true -> False.
Proof.
  intros H1 H2. pose proof (string_ltb_trans s t s H1 H2) as H.
  rewrite string_ltb_irrefl in H. discriminate.
Qed.

End StringOrder.

Section AttrRendererFacts.
Import AttrRenderer.

Variable HTML_EMPTY_ATTRS : gset string.

Lemma pair_lt_names (a b : string * value) :
  fst a <> fst b -> pair_lt a b = Some (String.ltb (fst a) (fst b)).
Proof.
  intros Hne. unfold pair_lt.
  destruct (String.eqb_spec (fst a) (fst b)); [contradiction | reflexivity].
Qed.

Lemma insert_stable_names (x : string * value) (l : list (string * value)) :
  ~ In (fst x) (map fst l) ->
  StronglySorted name_lt l ->
  exists r, insert_stable x l = Some r /\ Permutation (x :: l) r /\
            StronglySorted name_lt r.
Proof.
  induction l as [|y l IH]; intros Hx Hs.
  - exists [x]. repeat split; [reflexivity | repeat constructor].
  - cbn [map In] in Hx. apply StronglySorted_inv in Hs as [Hs Hy].
    cbn [insert_stable]. rewrite pair_lt_names by tauto.
    destruct (String.ltb (fst y) (fst x)) eqn:Elt.
    + destruct IH as (r & -> & Hp & Hr); [tauto | exact Hs |].
      exists (y :: r). split; [reflexivity |]. split.
      * rewrite <- Hp. apply perm_swap.
      * constructor; [exact Hr |]. rewrite <- Hp. now constructor.
    + exists (x :: y :: l). split; [reflexivity |]. split; [reflexivity |].
      assert (name_lt x y) as Hxy.
      { apply string_ltb_total; [| exact Elt]. intros E. apply Hx. now left. }
      constructor; [now constructor |].
      constructor; [exact Hxy |].
      eapply Forall_impl; [exact Hy |]. intros z Hz.
      exact (string_ltb_trans _ _ _ Hxy Hz).
Qed.

Lemma sorted_names (l : list (string * value)) :
  List.NoDup (map fst l) ->
  exists r, sorted l = Some r /\ Permutation l r /\ StronglySorted name_lt r.
Proof.
  induction l as [|x l IH]; intros Hnd.
  - exists []. repeat split; constructor.
  - cbn [map] in Hnd. apply List.NoDup_cons_iff in Hnd as [Hx Hnd].
    destruct (IH Hnd) as (r & Hr & Hp & Hs). cbn [sorted]. rewrite Hr.
    destruct (insert_stable_names x r) as (r' & Hr' & Hp' & Hs').
    { intros Hin. apply Hx. revert Hin.
      apply Permutation_in. symmetry. now apply Permutation_map. }
    { exact Hs. }
    exists r'. split; [exact Hr' |]. split; [| exact Hs'].
    rewrite <- Hp'. now constructor.
Qed.

Lemma sorted_names_permutation (l l' : list (string * value)) :
  List.NoDup (map fst l) -> Permutation l l' -> sorted l' = sorted l.
Proof.
  intros Hnd Hp.
  assert (List.NoDup (map fst l')) as Hnd'.
  { eapply Permutation_NoDup; [| exact Hnd]. now apply Permutation_map. }
  destruct (sorted_names l Hnd) as (r & -> & Hpr & Hs).
  destruct (sorted_names l' Hnd') as (r' & -> & Hpr' & Hs').
  f_equal. apply (StronglySorted_unique_strong name_lt); try assumption.
  - intros a b _ _ Hab Hba. exfalso. exact (string_ltb_asym _ _ Hab Hba).
  - rewrite <- Hpr', <- Hpr. now symmetry.
Qed.

Lemma py_eq_refl (v : value) : py_eq v v = true.
Proof.
  unfold py_eq. destruct (py_num v); now apply bool_decide_eq_true_2.
Qed.

Lemma py_lt_true (v w : value) :
  py_lt v w = Some true ->
  (exists a b, py_num v = Some a /\ py_num w = Some b /\ (a < b)%Z) \/
  (exists s t, v = VStr s /\ w = VStr t /\ String.ltb s t = true).
Proof.
  unfold py_lt.
  destruct (py_num v) as [a|] eqn:Ev, (py_num w) as [b|] eqn:Ew.
  - intros H. injection H as H. apply Z.ltb_lt in H. left. eauto.
  - destruct v, w; try discriminate.
  - destruct v, w; try discriminate.
  - destruct v, w; try discriminate. intros H. injection H as H.
    right. eauto.
Qed.

Lemma py_lt_num (v w : value) (a b : Z) :
  py_num v = Some a -> py_num w = Some b ->
  py_lt v w = Some (Z.ltb a b) /\ py_eq v w = bool_decide (a = b).
Proof. intros Hv Hw. unfold py_lt, py_eq. now rewrite Hv, Hw. Qed.

Lemma py_lt_text (s t : string) :
  py_lt (VStr s) (VStr t) = Some (String.ltb s t) /\
  py_eq (VStr s) (VStr t) = bool_decide (VStr s = VStr t).
Proof. split; reflexivity. Qed.

(** Below means different, and not above. *)
Lemma py_lt_strict (v w : value) :
  py_lt v w = Some true -> py_eq v w = false /\ py_eq w v = false /\
                           py_lt w v = Some false.
Proof.
  intros H. destruct (py_lt_true v w H)
    as [(a & b & Hv & Hw & Hab)|(s & t & -> & -> & Hst)].
  - destruct (py_lt_num v w a b Hv Hw) as [_ ->].
    destruct (py_lt_num w v b a Hw Hv) as [-> ->].
    repeat split; try (apply bool_decide_eq_false_2; lia).
    f_equal. apply Z.ltb_ge. lia.
  - cbn. repeat split.
    + apply bool_decide_eq_false_2. intros [= ->].
      rewrite string_ltb_irrefl in Hst. discriminate.
    + apply bool_decide_eq_false_2. intros [= ->].
      rewrite string_ltb_irrefl in Hst. discriminate.
    + f_equal. destruct (String.ltb t s) eqn:E; [| reflexivity].
      exfalso. exact (string_ltb_asym _ _ Hst E).
Qed.

Lemma py_lt_trans (u v w : value) :
  py_lt u v = Some true -> py_lt v w = Some true -> py_lt u w = Some true.
Proof.
  intros H1 H2.
  destruct (py_lt_true u v H1)
    as [(a & b & Hu & Hv & Hab)|(s & t & Eu & Ev & Hst)];
    destruct (py_lt_true v w H2)
    as [(b' & c & Hv' & Hw & Hbc)|(t' & x & Ev' & Ew & Htx)].
  - rewrite Hv in Hv'. injection Hv' as <-.
    destruct (py_lt_num u w a c Hu Hw) as [-> _]. f_equal.
    apply Z.ltb_lt. lia.
  - subst v. discriminate.
  - subst v. discriminate.
  - subst u w. rewrite Ev in Ev'. injection Ev' as <-. cbn. f_equal.
    exact (string_ltb_trans _ _ _ Hst Htx).
Qed.

Lemma pair_below_inv (a b : string * value) :
  pair_below a b ->
  (fst a <> fst b /\ String.ltb (fst a) (fst b) = true) \/
  (fst a = fst b /\ py_lt (snd a) (snd b) = Some true).
Proof.
  unfold pair_below, pair_lt.
  destruct (String.eqb_spec (fst a) (fst b)) as [E|N].
  - destruct (py_eq (snd a) (snd b)); [discriminate |]. intros H. now right.
  - intros H. injection H as H. now left.
Qed.

Lemma pair_below_names (a b : string * value) :
  fst a <> fst b -> String.ltb (fst a) (fst b) = true -> pair_below a b.
Proof.
  intros N H. unfold pair_below. rewrite pair_lt_names by exact N.
  now rewrite H.
Qed.

Lemma pair_below_values (a b : string * value) :
  fst a = fst b -> py_lt (snd a) (snd b) = Some true -> pair_below a b.
Proof.
  intros E H. unfold pair_below, pair_lt. rewrite E, String.eqb_refl.
  destruct (py_lt_strict _ _ H) as (-> & _). exact H.
Qed.

Lemma pair_below_trans (a b c : string * value) :
  pair_below a b -> pair_below b c -> pair_below a c.
Proof.
  intros Hab Hbc.
  destruct (pair_below_inv a b Hab) as [[Nab Lab]|[Eab Vab]];
    destruct (pair_below_inv b c Hbc) as [[Nbc Lbc]|[Ebc Vbc]].
  - pose proof (string_ltb_trans _ _ _ Lab Lbc) as Lac.
    apply pair_below_names; [| exact Lac]. intros E. rewrite E in Lac.
    rewrite string_ltb_irrefl in Lac. discriminate.
  - apply pair_below_names; rewrite <- Ebc; assumption.
  - apply pair_below_names; rewrite Eab; assumption.
  - apply pair_below_values; [congruence |].
    exact (py_lt_trans _ _ _ Vab Vbc).
Qed.

Lemma pair_lt_refl (a : string * value) : pair_lt a a = Some false.
Proof. unfold pair_lt. now rewrite String.eqb_refl, py_eq_refl. Qed.

Lemma pair_below_irrefl (a : string * value) : ~ pair_below a a.
Proof. unfold pair_below. rewrite pair_lt_refl. discriminate. Qed.

Lemma pair_below_asym (a b : string * value) :
  pair_below a b -> pair_below b a -> False.
Proof.
  intros H1 H2. exact (pair_below_irrefl a (pair_below_trans _ _ _ H1 H2)).
Qed.

(** When [a] is below [b], the test [b < a] answers no. *)
Lemma pair_below_not_above (a b : string * value) :
  pair_below a b -> pair_lt b a = Some false.
Proof.
  intros H. destruct (pair_below_inv a b H) as [[N L]|[E V]].
  - rewrite pair_lt_names by congruence. f_equal.
    destruct (String.ltb (fst b) (fst a)) eqn:E; [| reflexivity].
    exfalso. exact (string_ltb_asym _ _ L E).
  - unfold pair_lt. rewrite <- E, String.eqb_refl.
    destruct (py_lt_strict _ _ V) as (_ & -> & ->). reflexivity.
Qed.

Lemma pair_le_trans (a b c : string * value) :
  pair_le a b -> pair_le b c -> pair_le a c.
Proof.
  intros [->|Hab] [->|Hbc]; unfold pair_le; auto.
  right. exact (pair_below_trans _ _ _ Hab Hbc).
Qed.

Lemma pair_le_antisym (a b : string * value) :
  pair_le a b -> pair_le b a -> a = b.
Proof.
  intros [->|Hab] [E|Hba]; auto. exfalso. exact (pair_below_asym _ _ Hab Hba).
Qed.

Lemma strictly_ordered_names (l : list (string * value)) :
  List.NoDup (map fst l) -> strictly_ordered l.
Proof.
  induction l as [|x l IH]; intros Hnd a b Ha Hb; [destruct Ha |].
  cbn [map] in Hnd. apply List.NoDup_cons_iff in Hnd as [Hx Hnd].
  assert (forall y, In y l -> fst x <> fst y) as Hxy.
  { intros y Hy E. apply Hx. rewrite E. now apply in_map. }
  assert (forall u v : string * value,
            fst u <> fst v -> pair_below u v \/ pair_below v u) as Hdiff.
  { intros u v N. destruct (String.ltb (fst u) (fst v)) eqn:E.
    - left. now apply pair_below_names.
    - right. apply pair_below_names; [congruence |].
      now apply string_ltb_total. }
  destruct Ha as [<-|Ha], Hb as [<-|Hb].
  - now left.
  - right. apply Hdiff. now apply Hxy.
  - right. apply Hdiff. intros E. now apply (Hxy a Ha).
  - now apply IH.
Qed.

Lemma strictly_ordered_permutation (l l' : list (string * value)) :
  Permutation l l' -> strictly_ordered l -> strictly_ordered l'.
Proof.
  intros Hp Ho a b Ha Hb. apply Ho; eapply Permutation_in; try eassumption;
    now symmetry.
Qed.

Lemma insert_stable_ordered (x : string * value) (l : list (string * value)) :
  strictly_ordered (x :: l) ->
  StronglySorted pair_le l ->
  exists r, insert_stable x l = Some r /\ Permutation (x :: l) r /\
            StronglySorted pair_le r.
Proof.
  induction l as [|y l IH]; intros Ho Hs.
  - exists [x]. repeat split; [reflexivity | repeat constructor].
  - apply StronglySorted_inv in Hs as [Hs Hy]. cbn [insert_stable].
    assert (pair_le x y -> pair_lt y x = Some false ->
            exists r, Some (x :: y :: l) = Some r /\
                      Permutation (x :: y :: l) r /\
                      StronglySorted pair_le r) as Hfront.
    { intros Hxy _. exists (x :: y :: l). split; [reflexivity |].
      split; [reflexivity |].
      constructor; [now constructor |]. constructor; [exact Hxy |].
      eapply Forall_impl; [exact Hy |]. intros z Hz.
      exact (pair_le_trans _ _ _ Hxy Hz). }
    destruct (Ho x y) as [E|[Hxy|Hyx]]; [now left | right; now left | | |].
    + subst y. rewrite pair_lt_refl. apply Hfront;
        [now left | apply pair_lt_refl].
    + rewrite (pair_below_not_above x y Hxy). apply Hfront;
        [now right | now apply pair_below_not_above].
    + unfold pair_below in Hyx. rewrite Hyx.
      destruct IH as (r & -> & Hp & Hr).
      { intros a b Ha Hb. apply Ho; cbn [In] in *; tauto. }
      { exact Hs. }
      exists (y :: r). split; [reflexivity |]. split.
      * rewrite <- Hp. apply perm_swap.
      * constructor; [exact Hr |]. rewrite <- Hp.
        constructor; [now right | exact Hy].
Qed.

Lemma sorted_ordered (l : list (string * value)) :
  strictly_ordered l ->
  exists r, sorted l = Some r /\ Permutation l r /\ StronglySorted pair_le r.
Proof.
  induction l as [|x l IH]; intros Ho.
  - exists []. repeat split; constructor.
  - destruct IH as (r & Hr & Hp & Hs).
    { intros a b Ha Hb. apply Ho; now right. }
    cbn [sorted]. rewrite Hr.
    destruct (insert_stable_ordered x r) as (r' & Hr' & Hp' & Hs').
    { apply (strictly_ordered_permutation (x :: l)); [| exact Ho].
      now constructor. }
    { exact Hs. }
    exists r'. split; [exact Hr' |]. split; [| exact Hs'].
    rewrite <- Hp'. now constructor.
Qed.

Lemma sorted_ordered_permutation (l l' : list (string * value)) :
  strictly_ordered l -> Permutation l l' -> sorted l' = sorted l.
Proof.
  intros Ho Hp.
  destruct (sorted_ordered l Ho) as (r & -> & Hpr & Hs).
  destruct (sorted_ordered l' (strictly_ordered_permutation l l' Hp Ho))
    as (r' & -> & Hpr' & Hs').
  f_equal. apply (StronglySorted_unique_strong pair_le); try assumption.
  - intros a b _ _. apply pair_le_antisym.
  - rewrite <- Hpr', <- Hpr. now symmetry.
Qed.

Lemma render_attr_omitted (mode k : string) (v : value) :
  resolve_value HTML_EMPTY_ATTRS k v = VNone ->
  render_attr HTML_EMPTY_ATTRS mode k v = None.
Proof. unfold render_attr. now intros ->. Qed.

Lemma render_attr_bare (mode k : string) (v : value) :
  String.prefix "html" mode = true ->
  k ∈ HTML_EMPTY_ATTRS ->
  resolve_value HTML_EMPTY_ATTRS k v <> VNone ->
  render_attr HTML_EMPTY_ATTRS mode k v = Some (" " ++ lower k).
Proof.
  intros Hm Hk Hv. unfold render_attr, is_empty_attr.
  rewrite Hm, (bool_decide_eq_true_2 _ Hk). cbn [andb].
  destruct (resolve_value HTML_EMPTY_ATTRS k v); congruence.
Qed.

Lemma render_attr_plain (mode k : string) (v : value) :
  String.prefix "html" mode = false \/ (k ∉ HTML_EMPTY_ATTRS) ->
  v <> VNone ->
  render_attr HTML_EMPTY_ATTRS mode k v
  = Some (name_value k (resolve_value HTML_EMPTY_ATTRS k v)) \/
  resolve_value HTML_EMPTY_ATTRS k v = VNone.
Proof.
  intros Hm Hv. unfold render_attr.
  destruct (resolve_value HTML_EMPTY_ATTRS k v) eqn:E; try (now right); left;
    (destruct Hm as [->|Hk]; [reflexivity |]);
    unfold is_empty_attr; rewrite (bool_decide_eq_false_2 _ Hk);
    now rewrite andb_false_r.
Qed.

Lemma resolve_value_true (k : string) :
  k ∈ HTML_EMPTY_ATTRS -> resolve_value HTML_EMPTY_ATTRS k (VBool true) = VStr k.
Proof.
  intros Hk. unfold resolve_value, is_empty_attr.
  now rewrite (bool_decide_eq_true_2 _ Hk).
Qed.

Lemma resolve_value_false (k : string) :
  k ∈ HTML_EMPTY_ATTRS -> resolve_value HTML_EMPTY_ATTRS k (VBool false) = VNone.
Proof.
  intros Hk. unfold resolve_value, is_empty_attr.
  now rewrite (bool_decide_eq_true_2 _ Hk).
Qed.

Lemma resolve_value_text (k s : string) :
  resolve_value HTML_EMPTY_ATTRS k (VStr s) = VStr s.
Proof.
  unfold resolve_value, in_true_false. cbn. now rewrite andb_false_r.
Qed.

End AttrRendererFacts.

Section AttrRendererClaims.
Import AttrRenderer.

Lemma render_attrs_sorted (E : gset string) (l r : list (string * value))
  (mode : string) :
  sorted l = Some r ->
  _render_attrs E (AttrsMapping l) mode
  = Some (omap (fun kv => render_attr E mode (fst kv) (snd kv)) r) /\
  _render_attrs E (AttrsPairs l) mode
  = Some (omap (fun kv => render_attr E mode (fst kv) (snd kv)) r).
Proof. intros H. unfold _render_attrs. now rewrite H. Qed.

Lemma render_attr_text (E : gset string) (mode k s : string) :
  String.prefix "html" mode = false \/ (k ∉ E) ->
  render_attr E mode k (VStr s) = Some (name_value k (VStr s)).
Proof.
  intros H. unfold render_attr. rewrite resolve_value_text.
  destruct H as [->|Hk]; [reflexivity |].
  unfold is_empty_attr. rewrite (bool_decide_eq_false_2 _ Hk).
  now rewrite andb_false_r.
Qed.

(** C4.  For a mapping, given by its items in whatever order it iterates
    them, the fragments are those of the items taken in ascending order
    of their names, so two iteration orders of the same items give the
    same fragments; the mapping with [b] bound to [2] and [a] to [1]
    yields the fragment for [a] and then the one for [b]. *)
Theorem render_attrs_mapping_sorted (HTML_EMPTY_ATTRS : gset string)
  (items : list (string * value)) (mode : string) :
  List.NoDup (map fst items) ->
  (exists l,
     sorted items = Some l /\ Permutation items l /\
     StronglySorted name_lt l /\
     _render_attrs HTML_EMPTY_ATTRS (AttrsMapping items) mode
     = Some (omap (fun kv => render_attr HTML_EMPTY_ATTRS mode (fst kv) (snd kv))
               l)) /\
  (forall items', Permutation items items' ->
     _render_attrs HTML_EMPTY_ATTRS (AttrsMapping items') mode
     = _render_attrs HTML_EMPTY_ATTRS (AttrsMapping items) mode) /\
  (String.prefix "html" mode = false \/
   (("a" ∉ HTML_EMPTY_ATTRS) /\ ("b" ∉ HTML_EMPTY_ATTRS)) ->
   _render_attrs HTML_EMPTY_ATTRS
     (AttrsMapping [("b", VStr "2"); ("a", VStr "1")]) mode
   = Some [" a=" ++ String dquote (String "1" (String dquote EmptyString));
           " b=" ++ String dquote (String "2" (String dquote EmptyString))] /\
   _render_attrs HTML_EMPTY_ATTRS
     (AttrsMapping [("a", VStr "1"); ("b", VStr "2")]) mode
   = Some [" a=" ++ String dquote (String "1" (String dquote EmptyString));
           " b=" ++ String dquote (String "2" (String dquote EmptyString))]).
Proof.
  intros Hnd. split; [| split].
  - destruct (sorted_names items Hnd) as (l & Hl & Hp & Hs).
    exists l. repeat split; try assumption.
    now apply render_attrs_sorted.
  - intros items' Hp. unfold _render_attrs.
    now rewrite (sorted_names_permutation items items' Hnd Hp).
  - intros H.
    assert (render_attr HTML_EMPTY_ATTRS mode "a" (VStr "1")
            = Some (name_value "a" (VStr "1"))) as Ha.
    { apply render_attr_text. tauto. }
    assert (render_attr HTML_EMPTY_ATTRS mode "b" (VStr "2")
            = Some (name_value "b" (VStr "2"))) as Hb.
    { apply render_attr_text. tauto. }
    split.
    + rewrite (proj1 (render_attrs_sorted HTML_EMPTY_ATTRS
                 [("b", VStr "2"); ("a", VStr "1")]
                 [("a", VStr "1"); ("b", VStr "2")] mode eq_refl)).
      cbn [omap list_omap fst snd]. rewrite Ha, Hb. reflexivity.
    + rewrite (proj1 (render_attrs_sorted HTML_EMPTY_ATTRS
                 [("a", VStr "1"); ("b", VStr "2")]
                 [("a", VStr "1"); ("b", VStr "2")] mode eq_refl)).
      cbn [omap list_omap fst snd]. rewrite Ha, Hb. reflexivity.
Qed.

(** The statement at the mapping of the specification, in an XML mode and
    with [checked] and [selected] as the empty attributes. *)
Lemma render_attrs_mapping_sorted_witness :
  _render_attrs {["checked"; "selected"]}
    (AttrsMapping [("b", VStr "2"); ("a", VStr "1")]) "xml"
  = Some [" a=" ++ String dquote (String "1" (String dquote EmptyString));
          " b=" ++ String dquote (String "2" (String dquote EmptyString))].
Proof.
  assert (List.NoDup (map fst [("b", VStr "2"); ("a", VStr "1")])) as Hnd.
  { repeat constructor; cbn; intuition discriminate. }
  destruct (render_attrs_mapping_sorted {["checked"; "selected"]}
              [("b", VStr "2"); ("a", VStr "1")] "xml" Hnd)
    as (_ & _ & H).
  apply H. left. reflexivity.
Defined.

(** Only the twenty-six capitals are changed by [lower]. *)
Lemma lower_char_other (c : ascii) :
  ~ In c (list_ascii_of_string "ABCDEFGHIJKLMNOPQRSTUVWXYZ") ->
  lower_char c = c.
Proof.
  destruct c as [[] [] [] [] [] [] [] []]; intros H; try reflexivity;
    exfalso; apply H; cbn [list_ascii_of_string In];
    repeat first [left; reflexivity | right].
Qed.

Lemma lower_idempotent (s : string) : lower (lower s) = lower s.
Proof.
  induction s as [|c s IH]; [reflexivity |]. cbn [lower]. f_equal; [| exact IH].
  destruct c as [[] [] [] [] [] [] [] []]; reflexivity.
Qed.

Lemma lower_length (s : string) : String.length (lower s) = String.length s.
Proof.
  induction s as [|c s IH]; [reflexivity |]. cbn [lower String.length].
  now rewrite IH.
Qed.

(** C5.  For a name among the empty attributes, [True] is rendered as the
    name itself and [False] as [None]; a pair whose value is [None] after
    that step yields nothing; and in a mode that starts with [html] the
    name is rendered bare and in lower case.  So a mapping with only that
    name yields nothing for [False] and the bare name for [True].  Lower
    case is what it is for ASCII names: the capitals [A] to [Z] become
    [a] to [z], every other character stays, so [CHECKED] is rendered as
    [checked]. *)
Theorem boolean_attr_elision (HTML_EMPTY_ATTRS : gset string)
  (mode k : string) :
  k ∈ HTML_EMPTY_ATTRS ->
  resolve_value HTML_EMPTY_ATTRS k (VBool true) = VStr k /\
  resolve_value HTML_EMPTY_ATTRS k (VBool false) = VNone /\
  (forall k' v, resolve_value HTML_EMPTY_ATTRS k' v = VNone ->
     render_attr HTML_EMPTY_ATTRS mode k' v = None) /\
  render_attr HTML_EMPTY_ATTRS mode k (VBool false) = None /\
  _render_attrs HTML_EMPTY_ATTRS (AttrsMapping [(k, VBool false)]) mode
  = Some [] /\
  (String.prefix "html" mode = true ->
   (forall v, resolve_value HTML_EMPTY_ATTRS k v <> VNone ->
      render_attr HTML_EMPTY_ATTRS mode k v = Some (" " ++ lower k)) /\
   render_attr HTML_EMPTY_ATTRS mode k (VBool true) = Some (" " ++ lower k) /\
   _render_attrs HTML_EMPTY_ATTRS (AttrsMapping [(k, VBool true)]) mode
   = Some [" " ++ lower k] /\
   (k = "CHECKED" ->
    _render_attrs HTML_EMPTY_ATTRS (AttrsMapping [(k, VBool true)]) mode
    = Some [" checked"])) /\
  lower "ABCDEFGHIJKLMNOPQRSTUVWXYZ" = "abcdefghijklmnopqrstuvwxyz" /\
  (forall c s,
     ~ In c (list_ascii_of_string "ABCDEFGHIJKLMNOPQRSTUVWXYZ") ->
     lower (String c s) = String c (lower s)) /\
  lower "CHECKED" = "checked" /\
  lower "noValidate" = "novalidate" /\
  lower "checked" = "checked" /\
  (forall s, lower (lower s) = lower s) /\
  (forall s, String.length (lower s) = String.length s).
Proof.
  intros Hk.
  pose proof (resolve_value_true HTML_EMPTY_ATTRS k Hk) as Ht.
  pose proof (resolve_value_false HTML_EMPTY_ATTRS k Hk) as Hf.
  assert (render_attr HTML_EMPTY_ATTRS mode k (VBool false) = None) as Hrf.
  { now apply render_attr_omitted. }
  split; [exact Ht |]. split; [exact Hf |].
  split; [intros k' v; apply render_attr_omitted |].
  split; [exact Hrf |].
  split.
  { cbn [_render_attrs sorted insert_stable omap list_omap fst snd]. now rewrite Hrf. }
  split.
  { intros Hm.
    assert (render_attr HTML_EMPTY_ATTRS mode k (VBool true)
            = Some (" " ++ lower k)) as Hrt.
    { apply render_attr_bare; [exact Hm | exact Hk |]. rewrite Ht. discriminate. }
    assert (_render_attrs HTML_EMPTY_ATTRS (AttrsMapping [(k, VBool true)]) mode
            = Some [" " ++ lower k]) as Hall.
    { cbn [_render_attrs sorted insert_stable omap list_omap fst snd].
      now rewrite Hrt. }
    split; [intros v; now apply render_attr_bare |].
    split; [exact Hrt |].
    split; [exact Hall |].
    intros E. rewrite Hall, E. reflexivity. }
  split; [reflexivity |].
  split.
  { intros c s Hc. cbn [lower]. now rewrite (lower_char_other c Hc). }
  split; [reflexivity |]. split; [reflexivity |]. split; [reflexivity |].
  split; [apply lower_idempotent | apply lower_length].
Qed.

(** The statement at [checked] in the mode [html5], and at a name written
    in capitals. *)
Lemma boolean_attr_elision_witness :
  _render_attrs {["checked"; "selected"]}
    (AttrsMapping [("checked", VBool false)]) "html5" = Some [] /\
  _render_attrs {["checked"; "selected"]}
    (AttrsMapping [("checked", VBool true)]) "html5" = Some [" checked"] /\
  _render_attrs {["CHECKED"; "Selected"]}
    (AttrsMapping [("CHECKED", VBool true)]) "html" = Some [" checked"] /\
  _render_attrs {["CHECKED"; "Selected"]}
    (AttrsMapping [("Selected", VInt 1)]) "html" = Some [" selected"].
Proof.
  assert ("checked" ∈ ({["checked"; "selected"]} : gset string)) as Hk.
  { apply elem_of_union_l, elem_of_singleton. reflexivity. }
  assert ("CHECKED" ∈ ({["CHECKED"; "Selected"]} : gset string)) as Hk1.
  { apply elem_of_union_l, elem_of_singleton. reflexivity. }
  assert ("Selected" ∈ ({["CHECKED"; "Selected"]} : gset string)) as Hk2.
  { apply elem_of_union_r, elem_of_singleton. reflexivity. }
  destruct (boolean_attr_elision {["checked"; "selected"]} "html5" "checked" Hk)
    as (_ & _ & _ & _ & Hf & Ht & _).
  destruct (boolean_attr_elision {["CHECKED"; "Selected"]} "html" "CHECKED" Hk1)
    as (_ & _ & _ & _ & _ & Hc & _).
  destruct (boolean_attr_elision {["CHECKED"; "Selected"]} "html" "Selected" Hk2)
    as (_ & _ & _ & _ & _ & Hs & _).
  split; [exact Hf |].
  split; [destruct (Ht eq_refl) as (_ & _ & H & _); exact H |].
  split; [destruct (Hc eq_refl) as (_ & _ & _ & H); exact (H eq_refl) |].
  destruct (Hs eq_refl) as (Hv & _).
  cbn [_render_attrs sorted insert_stable omap list_omap fst snd].
  rewrite Hv; [reflexivity |]. vm_compute. discriminate.
Defined.

(** Two pairs with the same name and with values that are equal for
    Python but print differently keep the order the caller gave them. *)
Lemma render_attrs_pairs_order_kept :
  Permutation [("a", VInt 1); ("a", VBool true)]
              [("a", VBool true); ("a", VInt 1)] /\
  _render_attrs ∅ (AttrsPairs [("a", VInt 1); ("a", VBool true)]) "xml"
  = Some [" a=" ++ String dquote (String "1" (String dquote EmptyString));
          " a=" ++ String dquote ("True" ++ String dquote EmptyString)] /\
  _render_attrs ∅ (AttrsPairs [("a", VBool true); ("a", VInt 1)]) "xml"
  = Some [" a=" ++ String dquote ("True" ++ String dquote EmptyString);
          " a=" ++ String dquote (String "1" (String dquote EmptyString))] /\
  _render_attrs ∅ (AttrsPairs [("a", VInt 1); ("a", VBool true)]) "xml"
  <> _render_attrs ∅ (AttrsPairs [("a", VBool true); ("a", VInt 1)]) "xml".
Proof.
  split; [apply perm_swap |].
  split; [vm_compute; reflexivity |].
  split; [vm_compute; reflexivity |].
  vm_compute. discriminate.
Qed.

(** C10, as the code has it.  A sequence of pairs is sorted like the items
    of a mapping.  When any two of its pairs are the same pair or one is
    below the other, as is the case when the names are pairwise distinct,
    every permutation of it yields the same fragments, those of the pairs
    in ascending order, which is the order of the names when these are
    distinct. *)
Theorem render_attrs_pairs_sorted (HTML_EMPTY_ATTRS : gset string)
  (pairs pairs' : list (string * value)) (mode : string) :
  strictly_ordered pairs ->
  Permutation pairs pairs' ->
  _render_attrs HTML_EMPTY_ATTRS (AttrsPairs pairs') mode
  = _render_attrs HTML_EMPTY_ATTRS (AttrsPairs pairs) mode /\
  _render_attrs HTML_EMPTY_ATTRS (AttrsPairs pairs) mode
  = _render_attrs HTML_EMPTY_ATTRS (AttrsMapping pairs) mode /\
  exists l,
    sorted pairs = Some l /\ Permutation pairs l /\
    StronglySorted pair_le l /\
    (List.NoDup (map fst pairs) -> StronglySorted name_lt l) /\
    _render_attrs HTML_EMPTY_ATTRS (AttrsPairs pairs) mode
    = Some (omap (fun kv => render_attr HTML_EMPTY_ATTRS mode (fst kv) (snd kv))
              l).
Proof.
  intros Ho Hp. split; [| split; [reflexivity |]].
  - unfold _render_attrs.
    now rewrite (sorted_ordered_permutation pairs pairs' Ho Hp).
  - destruct (sorted_ordered pairs Ho) as (l & Hl & Hpl & Hs).
    exists l. split; [exact Hl |]. split; [exact Hpl |]. split; [exact Hs |].
    split; [| now apply render_attrs_sorted].
    intros Hnd. destruct (sorted_names pairs Hnd) as (r & Hr & _ & Hsr).
    rewrite Hl in Hr. now injection Hr as ->.
Qed.

(** The statement at three pairs, two of them with the same name, given
    in two orders; and at pairs with distinct names. *)
Lemma render_attrs_pairs_sorted_witness :
  _render_attrs ∅
    (AttrsPairs [("id", VStr "x"); ("class", VStr "b"); ("class", VStr "a")])
    "xml"
  = _render_attrs ∅
    (AttrsPairs [("class", VStr "a"); ("id", VStr "x"); ("class", VStr "b")])
    "xml" /\
  strictly_ordered [("href", VNone); ("id", VStr "x"); ("class", VStr "y")].
Proof.
  split.
  - assert (strictly_ordered
              [("class", VStr "a"); ("id", VStr "x"); ("class", VStr "b")])
      as Ho.
    { intros a b Ha Hb. cbn [In] in Ha, Hb.
      destruct Ha as [<-|[<-|[<-|[]]]], Hb as [<-|[<-|[<-|[]]]];
        first [ left; reflexivity
              | right; left; reflexivity
              | right; right; reflexivity ]. }
    refine (proj1 (render_attrs_pairs_sorted ∅
              [("class", VStr "a"); ("id", VStr "x"); ("class", VStr "b")]
              [("id", VStr "x"); ("class", VStr "b"); ("class", VStr "a")]
              "xml" Ho _)).
    apply Permutation_cons_append.
  - apply strictly_ordered_names. repeat constructor; cbn; intuition discriminate.
Defined.

End AttrRendererClaims.

(** ** Inheritance *)

Section InheritanceFacts.
Import Inheritance.

(** The parent's namespace after the first loop, name by name. *)
Lemma find_overrides_lookup (self_globals p_globals : gmap string obj)
  (k : string) :
  find_overrides self_globals p_globals !! k =
  match self_globals !! k with
  | Some v =>
      if String.eqb k "__main__" then p_globals !! k
      else if is_TplFunc v then Some v else p_globals !! k
  | None => p_globals !! k
  end.
Proof.
  unfold find_overrides. revert k.
  apply (map_fold_weak_ind
           (fun r m => forall k,
              r !! k = match m !! k with
                       | Some v =>
                           if String.eqb k "__main__" then p_globals !! k
                           else if is_TplFunc v then Some v else p_globals !! k
                       | None => p_globals !! k
                       end)).
  - intros k. now rewrite lookup_empty.
  - intros i x m r Hi IH k. unfold override_step.
    destruct (decide (i = k)) as [->|Hne].
    + rewrite lookup_insert_eq. specialize (IH k). rewrite Hi in IH.
      destruct (String.eqb k "__main__"); [exact IH |].
      destruct (is_TplFunc x); [apply lookup_insert_eq | exact IH].
    + rewrite (lookup_insert_ne m) by exact Hne. rewrite <- IH.
      destruct (String.eqb i "__main__"); [reflexivity |].
      destruct (is_TplFunc x); [now apply lookup_insert_ne | reflexivity].
Qed.

Lemma find_inherited_lookup (self : nat) (p_globals : gmap string obj)
  (child : instance) :
  let child1 := find_inherited self p_globals child in
  inst_class child1 = inst_class child /\
  _context child1 = _context child /\
  forall k,
    __globals__ child1 !! k =
    match __globals__ child !! k with
    | Some v => Some v
    | None => inherited_entry p_globals k
    end /\
    inst_attrs child1 !! k =
    match inst_attrs child !! k with
    | Some a => Some a
    | None => inherited_attr self (inst_class child) p_globals k
    end.
Proof.
  unfold find_inherited.
  apply (map_fold_weak_ind
           (fun r m =>
              inst_class r = inst_class child /\
              _context r = _context child /\
              forall k,
                __globals__ r !! k =
                match __globals__ child !! k with
                | Some v => Some v
                | None => inherited_entry m k
                end /\
                inst_attrs r !! k =
                match inst_attrs child !! k with
                | Some a => Some a
                | None => inherited_attr self (inst_class child) m k
                end)).
  - split; [reflexivity |]. split; [reflexivity |]. intros k.
    unfold inherited_attr, inherited_entry. rewrite lookup_empty.
    split; [now destruct (__globals__ child !! k)
           | now destruct (inst_attrs child !! k)].
  - intros i x m r Hi (Hc & Hx & IH).
    assert (inherited_entry m i = None) as Hei.
    { unfold inherited_entry. now rewrite Hi. }
    assert (forall k, i <> k ->
              inherited_entry (<[i:=x]> m) k = inherited_entry m k) as Hek.
    { intros k Hne. unfold inherited_entry. now rewrite lookup_insert_ne. }
    assert (forall k, i <> k ->
              inherited_attr self (inst_class child) (<[i:=x]> m) k
              = inherited_attr self (inst_class child) m k) as Hak.
    { intros k Hne. unfold inherited_attr. now rewrite Hek. }
    assert (inherited_entry (<[i:=x]> m) i =
            if String.eqb i "__main__" then None
            else if is_TplFunc x then Some x else None) as Hnew.
    { unfold inherited_entry. now rewrite lookup_insert_eq. }
    unfold inherit_step.
    destruct (String.eqb i "__main__") eqn:Emain.
    { split; [exact Hc |]. split; [exact Hx |]. intros k.
      destruct (decide (i = k)) as [<-|Hne].
      - unfold inherited_attr. rewrite Hnew. specialize (IH i).
        unfold inherited_attr in IH. rewrite Hei in IH. exact IH.
      - rewrite Hek, Hak by exact Hne. apply IH. }
    destruct (is_TplFunc x) eqn:Efunc.
    2:{ split; [exact Hc |]. split; [exact Hx |]. intros k.
        destruct (decide (i = k)) as [<-|Hne].
        - unfold inherited_attr. rewrite Hnew. specialize (IH i).
          unfold inherited_attr in IH. rewrite Hei in IH. exact IH.
        - rewrite Hek, Hak by exact Hne. apply IH. }
    set (child1 := if bool_decide (is_Some (__globals__ r !! i)) then r
                   else set_globals (<[i:=x]> (__globals__ r)) r).
    assert (inst_class child1 = inst_class child /\
            _context child1 = _context child /\
            inst_attrs child1 = inst_attrs r /\
            forall k, __globals__ child1 !! k =
                      match __globals__ child !! k with
                      | Some v => Some v
                      | None => inherited_entry (<[i:=x]> m) k
                      end) as (Hc1 & Hx1 & Ha1 & Hg1).
    { subst child1. destruct (IH i) as [Hgi _]. rewrite Hei in Hgi.
      case_bool_decide as Hsome.
      - repeat split; try assumption. intros k.
        destruct (decide (i = k)) as [<-|Hne].
        + rewrite Hgi. destruct (__globals__ child !! i) eqn:E; [reflexivity |].
          rewrite Hgi in Hsome. now destruct Hsome.
        + rewrite Hek by exact Hne. apply IH.
      - repeat split; try assumption. intros k. cbn [set_globals __globals__].
        destruct (decide (i = k)) as [<-|Hne].
        + rewrite lookup_insert_eq, Hnew.
          destruct (__globals__ child !! i) eqn:E.
          * exfalso. apply Hsome. rewrite Hgi. eauto.
          * reflexivity.
        + rewrite lookup_insert_ne by exact Hne. rewrite Hek by exact Hne.
          apply IH. }
    clearbody child1.
    assert (getattr child1 i =
            match inst_attrs child !! i with
            | Some a => Some a
            | None => cls_attrs (inst_class child) !! i
            end) as Hget.
    { unfold getattr. rewrite Ha1, Hc1. destruct (IH i) as [_ Hai].
      rewrite Hai. unfold inherited_attr. rewrite Hei.
      now destruct (inst_attrs child !! i). }
    unfold hasattr. case_bool_decide as Hhas.
    + split; [exact Hc1 |]. split; [exact Hx1 |]. intros k.
      split; [apply Hg1 |]. rewrite Ha1.
      destruct (decide (i = k)) as [<-|Hne].
      * destruct (IH i) as [_ Hai]. rewrite Hai.
        unfold inherited_attr. rewrite Hei, Hnew.
        destruct (inst_attrs child !! i) eqn:E; [reflexivity |].
        rewrite Hget in Hhas. destruct Hhas as [a Ha]. now rewrite Ha.
      * rewrite Hak by exact Hne. apply IH.
    + split; [exact Hc1 |]. split; [exact Hx1 |]. intros k.
      cbn [set_attrs __globals__ inst_attrs].
      split; [apply Hg1 |]. rewrite Ha1.
      destruct (decide (i = k)) as [<-|Hne].
      * rewrite lookup_insert_eq. unfold inherited_attr. rewrite Hnew.
        rewrite Hget in Hhas.
        destruct (inst_attrs child !! i) eqn:E.
        { exfalso. apply Hhas. eauto. }
        destruct (cls_attrs (inst_class child) !! i) eqn:E'.
        { exfalso. apply Hhas. eauto. }
        reflexivity.
      * rewrite lookup_insert_ne by exact Hne. rewrite Hak by exact Hne.
        apply IH.
Qed.

End InheritanceFacts.

Section ExtendClaims.
Import Inheritance.

(** [_extend] succeeds on a child that is on the heap and has [self] in
    its namespace, and this is what it builds. *)
Lemma extend_result (h : heap) (self : nat) (parent : template_class)
  (child : instance) (s : obj) :
  h !! self = Some child ->
  __globals__ child !! "self" = Some s ->
  let p := length h in
  let p0 := new_instance p parent (_context child) in
  let pg := find_overrides (__globals__ child) (__globals__ p0) in
  let child1 := find_inherited self pg child in
  _extend h self parent =
  Some ((<[self := set_globals
                     (<["local" := OInst self]>
                        (<["parent" := OInst p]> (__globals__ child1)))
                     child1]> h
           ++ [set_globals
                 (<["self" := s]>
                    (<["local" := OInst p]> (<["child" := OInst self]> pg)))
                 p0])%list, p).
Proof.
  intros Hchild Hself p p0 pg child1. unfold _extend. rewrite Hchild.
  fold p p0 pg child1.
  destruct (find_inherited_lookup self pg child) as (_ & _ & Hk).
  fold child1 in Hk. destruct (Hk "self") as [Hg _].
  rewrite Hself in Hg. rewrite Hg. reflexivity.
Qed.

Lemma heap_lookup_new (h : heap) (self : nat) (c x : instance) :
  ((<[self := c]> h ++ [x])%list : heap) !! length h = Some x.
Proof.
  rewrite lookup_app_r by (rewrite length_insert; lia).
  rewrite length_insert, Nat.sub_diag. reflexivity.
Qed.

Lemma heap_lookup_self (h : heap) (self : nat) (c c0 x : instance) :
  h !! self = Some c0 ->
  ((<[self := c]> h ++ [x])%list : heap) !! self = Some c.
Proof.
  intros H. apply lookup_lt_Some in H.
  rewrite lookup_app_l by (rewrite length_insert; lia).
  now apply list_lookup_insert_eq.
Qed.

Lemma bind_methods_class (self : nat) (methods : list (string * func))
  (i : instance) :
  inst_class (bind_methods self methods i) = inst_class i.
Proof.
  unfold bind_methods. revert i.
  induction methods as [|m ms IH]; intros i; [reflexivity |].
  cbn [fold_left]. now rewrite IH.
Qed.

Lemma new_instance_class (self : nat) (cls : template_class)
  (context : gmap string obj) :
  inst_class (new_instance self cls context) = cls.
Proof.
  unfold new_instance. cbn [set_globals set_attrs inst_class].
  now rewrite bind_methods_class.
Qed.

(** C1, as the code has it.  After [extend], every exposed function of the
    child's namespace under a name other than [__main__], [child] and
    [local] is the entry of that name in the namespace of the parent
    instance just created, so a call of that name from the parent's body
    runs the child's block over the child's namespace; [child] and
    [local] in the parent's namespace are the child and the parent
    instance. *)
Theorem extend_overrides (h : heap) (self : nat) (parent : template_class)
  (child : instance) :
  h !! self = Some child ->
  wf_instance child ->
  exists h' p_inst,
    _extend h self parent = Some (h', length h) /\
    h' !! length h = Some p_inst /\
    inst_class p_inst = parent /\
    (forall k f,
       k <> "__main__" -> k <> "child" -> k <> "local" ->
       __globals__ child !! k = Some (OFunc f) ->
       __globals__ p_inst !! k = Some (OFunc f) /\
       forall owner name fuel,
         f = MkTplFunc (BlockCode owner name) (Some self) ->
         call_name (S fuel) h' (length h) k = Some (RunBlock owner name self)) /\
    __globals__ p_inst !! "child" = Some (OInst self) /\
    __globals__ p_inst !! "local" = Some (OInst (length h)).
Proof.
  intros Hchild [[s Hself] _].
  pose proof (extend_result h self parent child s Hchild Hself) as Hext.
  cbv zeta in Hext.
  set (p0 := new_instance (length h) parent (_context child)) in *.
  set (pg := find_overrides (__globals__ child) (__globals__ p0)) in *.
  set (child1 := find_inherited self pg child) in *.
  eexists _, _. split; [exact Hext |].
  split; [apply heap_lookup_new |].
  split; [apply new_instance_class |].
  cbn [set_globals __globals__].
  split.
  - intros k f Hmain Hc Hl Hk.
    assert (<["self":=s]> (<["local":=OInst (length h)]>
              (<["child":=OInst self]> pg)) !! k = Some (OFunc f)) as Hpk.
    { destruct (decide ("self" = k)) as [<-|Hs].
      - rewrite lookup_insert_eq. congruence.
      - rewrite !lookup_insert_ne by congruence.
        subst pg. rewrite find_overrides_lookup, Hk.
        destruct (String.eqb_spec k "__main__"); [contradiction | reflexivity]. }
    split; [exact Hpk |].
    intros owner name fuel ->. unfold call_name.
    rewrite heap_lookup_new. cbn [set_globals __globals__]. rewrite Hpk.
    cbn [call _inst _func].
    rewrite (heap_lookup_self h self _ child _ Hchild). reflexivity.
  - split.
    + rewrite lookup_insert_ne by discriminate.
      rewrite lookup_insert_ne by discriminate. apply lookup_insert_eq.
    + rewrite lookup_insert_ne by discriminate. apply lookup_insert_eq.
Qed.

(** The statement at a page that overrides the header of its layout. *)
Lemma extend_overrides_witness :
  match _extend [new_instance 0 Page ∅] 0 Layout with
  | Some (h', p) => call_name 1 h' p "header"
  | None => None
  end = Some (RunBlock "Page" "header" 0).
Proof.
  assert (wf_instance (new_instance 0 Page ∅)) as Hwf.
  { split; eexists; vm_compute; reflexivity. }
  destruct (extend_overrides [new_instance 0 Page ∅] 0 Layout
              (new_instance 0 Page ∅) eq_refl Hwf)
    as (h' & p_inst & Hext & _ & _ & Hk & _).
  rewrite Hext.
  assert (__globals__ (new_instance 0 Page ∅) !! "header"
          = Some (OFunc (MkTplFunc (BlockCode "Page" "header") (Some 0)))) as Hh.
  { vm_compute. reflexivity. }
  assert ("header" <> "__main__") as N1 by discriminate.
  assert ("header" <> "child") as N2 by discriminate.
  assert ("header" <> "local") as N3 by discriminate.
  pose proof (Hk "header" _ N1 N2 N3 Hh) as [_ Hcall].
  exact (Hcall "Page" "header" 0 eq_refl).
Defined.

(** A block of the child that is called [child] does not reach the
    parent's namespace: the entry of that name is the child instance. *)
Lemma extend_child_block_not_override :
  __globals__ (new_instance 0 ChildBlock ∅) !! "child"
  = Some (OFunc (MkTplFunc (BlockCode "ChildBlock" "child") (Some 0))) /\
  (exists h' p_inst child',
     _extend [new_instance 0 ChildBlock ∅] 0 Layout = Some (h', 1) /\
     h' !! 1 = Some p_inst /\ h' !! 0 = Some child' /\
     __globals__ child' !! "child"
     = Some (OFunc (MkTplFunc (BlockCode "ChildBlock" "child") (Some 0))) /\
     __globals__ p_inst !! "child" = Some (OInst 0)) /\
  ~ (forall (h : heap) self parent child h' p p_inst k f,
       h !! self = Some child ->
       _extend h self parent = Some (h', p) ->
       h' !! p = Some p_inst ->
       k <> "__main__" ->
       __globals__ child !! k = Some (OFunc f) ->
       __globals__ p_inst !! k = Some (OFunc f)).
Proof.
  assert (__globals__ (new_instance 0 ChildBlock ∅) !! "child"
          = Some (OFunc (MkTplFunc (BlockCode "ChildBlock" "child") (Some 0))))
    as Hc0 by (vm_compute; reflexivity).
  assert (exists h' p_inst child',
     _extend [new_instance 0 ChildBlock ∅] 0 Layout = Some (h', 1) /\
     h' !! 1 = Some p_inst /\ h' !! 0 = Some child' /\
     __globals__ child' !! "child"
     = Some (OFunc (MkTplFunc (BlockCode "ChildBlock" "child") (Some 0))) /\
     __globals__ p_inst !! "child" = Some (OInst 0)) as Hex.
  { eexists _, _, _. split.
    { apply (extend_result [new_instance 0 ChildBlock ∅] 0 Layout
               (new_instance 0 ChildBlock ∅) (OInst 0) eq_refl).
      vm_compute. reflexivity. }
    split; [apply (heap_lookup_new [new_instance 0 ChildBlock ∅]) |].
    split; [apply (heap_lookup_self [new_instance 0 ChildBlock ∅] 0 _
                     (new_instance 0 ChildBlock ∅)); reflexivity |].
    split; vm_compute; reflexivity. }
  split; [exact Hc0 |]. split; [exact Hex |].
  intros Hall. destruct Hex as (h' & p_inst & child' & Hext & Hp & _ & _ & Hc).
  assert ("child" <> "__main__") as Hne by discriminate.
  pose proof (Hall [new_instance 0 ChildBlock ∅] 0 Layout
                (new_instance 0 ChildBlock ∅) h' 1 p_inst "child"
                (MkTplFunc (BlockCode "ChildBlock" "child") (Some 0))
                eq_refl Hext Hp Hne Hc0) as Habs.
  rewrite Hc in Habs. discriminate.
Qed.

Lemma bind_methods_keeps (self : nat) (methods : list (string * func))
  (i : instance) (k : string) :
  is_Some (__globals__ i !! k) ->
  is_Some (__globals__ (bind_methods self methods i) !! k).
Proof.
  unfold bind_methods. revert i.
  induction methods as [|m ms IH]; intros i Hk; [exact Hk |].
  cbn [fold_left]. apply IH. cbn [set_globals __globals__].
  rewrite lookup_insert_is_Some. destruct (decide (fst m = k)); auto.
Qed.

(** Every instance [__init__] builds has [self] and [local] bound. *)
Lemma new_instance_wf (self : nat) (cls : template_class)
  (context : gmap string obj) :
  wf_instance (new_instance self cls context).
Proof.
  unfold wf_instance, new_instance. cbn [set_globals __globals__].
  split; apply lookup_union_is_Some; right; apply bind_methods_keeps;
    cbn [__globals__]; eexists.
  - rewrite !lookup_insert_ne by discriminate. apply lookup_insert_eq.
  - rewrite !lookup_insert_ne by discriminate. apply lookup_insert_eq.
Qed.

Lemma hasattr_false (i : instance) (k : string) :
  hasattr i k = false ->
  inst_attrs i !! k = None /\ cls_attrs (inst_class i) !! k = None.
Proof.
  unfold hasattr, getattr. intros H. apply bool_decide_eq_false_1 in H.
  destruct (inst_attrs i !! k) eqn:E.
  - exfalso. apply H. eauto.
  - split; [reflexivity |]. destruct (cls_attrs (inst_class i) !! k) eqn:E'.
    + exfalso. apply H. eauto.
    + reflexivity.
Qed.

(** The trampoline for [k], called on any heap where the instance it is
    bound to has an instance under [parent], fetches that instance's
    attribute and calls it. *)
Lemma trampoline_late_bound (h2 : heap) (self p2 : nat) (c2 pi2 : instance)
  (k : string) :
  h2 !! self = Some c2 ->
  __globals__ c2 !! "parent" = Some (OInst p2) ->
  h2 !! p2 = Some pi2 ->
  trampoline_forward h2 self k = getattr pi2 k /\
  forall f' fuel,
    getattr pi2 k = Some (OFunc f') ->
    call (S fuel) h2 (MkTplFunc (Trampoline k) (Some self)) = call fuel h2 f'.
Proof.
  intros Hc Hp Hpi. split.
  - unfold trampoline_forward. now rewrite Hc, Hp, Hpi.
  - intros f' fuel Hf. cbn [call _inst _func]. now rewrite Hc, Hp, Hpi, Hf.
Qed.

(** C2, as the code has it.  After [extend], every exposed function that
    the new parent instance has under a name other than [__main__] and
    [parent], and that the child's namespace lacks, is in the child's
    namespace, so the child's own body reaches the parent's block; where
    the child has no attribute of a name the parent exposes, the child's
    attribute of that name becomes a trampoline bound to the child; and a
    trampoline, whenever it is called, forwards to the attribute of the
    instance then bound to [parent] in the child's namespace, which after
    [extend] is the new parent. *)
Theorem extend_inherits (h : heap) (self : nat) (parent : template_class)
  (child : instance) :
  h !! self = Some child ->
  wf_instance child ->
  exists h' child' p_inst,
    _extend h self parent = Some (h', length h) /\
    h' !! self = Some child' /\
    h' !! length h = Some p_inst /\
    (forall k f,
       k <> "__main__" -> k <> "parent" ->
       __globals__ (new_instance (length h) parent (_context child)) !! k
       = Some (OFunc f) ->
       __globals__ child !! k = None ->
       __globals__ child' !! k = Some (OFunc f) /\
       forall owner name fuel,
         f = MkTplFunc (BlockCode owner name) (Some (length h)) ->
         call_name (S fuel) h' self k
         = Some (RunBlock owner name (length h))) /\
    (forall k f,
       k <> "__main__" ->
       __globals__ (new_instance (length h) parent (_context child)) !! k
       = Some (OFunc f) ->
       hasattr child k = false ->
       inst_attrs child' !! k
       = Some (OFunc (MkTplFunc (Trampoline k) (Some self)))) /\
    __globals__ child' !! "parent" = Some (OInst (length h)) /\
    (forall k, trampoline_forward h' self k = getattr p_inst k) /\
    (forall (h2 : heap) c2 p2 pi2 k,
       h2 !! self = Some c2 ->
       __globals__ c2 !! "parent" = Some (OInst p2) ->
       h2 !! p2 = Some pi2 ->
       trampoline_forward h2 self k = getattr pi2 k /\
       forall f' fuel,
         getattr pi2 k = Some (OFunc f') ->
         call (S fuel) h2 (MkTplFunc (Trampoline k) (Some self))
         = call fuel h2 f').
Proof.
  intros Hchild [[s Hself] [loc Hlocal]].
  pose proof (extend_result h self parent child s Hchild Hself) as Hext.
  cbv zeta in Hext.
  set (p0 := new_instance (length h) parent (_context child)) in *.
  set (pg := find_overrides (__globals__ child) (__globals__ p0)) in *.
  destruct (find_inherited_lookup self pg child) as (Hcls & _ & Hlook).
  cbv zeta in Hcls, Hlook.
  set (child1 := find_inherited self pg child) in *.
  assert (forall k f, k <> "__main__" ->
            __globals__ p0 !! k = Some (OFunc f) ->
            exists v, inherited_entry pg k = Some v /\
                      (__globals__ child !! k = None -> v = OFunc f)) as Hentry.
  { intros k f Hmain Hk. unfold inherited_entry. subst pg.
    rewrite find_overrides_lookup, Hk.
    destruct (String.eqb_spec k "__main__") as [|_]; [contradiction |].
    destruct (__globals__ child !! k) as [v|] eqn:E.
    - destruct (is_TplFunc v) eqn:Ev.
      + rewrite Ev. exists v. split; [reflexivity | discriminate].
      + cbn [is_TplFunc]. exists (OFunc f). split; reflexivity.
    - cbn [is_TplFunc]. exists (OFunc f). split; reflexivity. }
  eexists _, _, _. split; [exact Hext |].
  split; [exact (heap_lookup_self h self _ child _ Hchild) |].
  split; [apply heap_lookup_new |].
  cbn [set_globals __globals__ inst_attrs].
  split.
  { intros k f Hmain Hpar Hk Hnone.
    assert (k <> "local") as Hloc by congruence.
    assert (<["local":=OInst self]>
              (<["parent":=OInst (length h)]> (__globals__ child1)) !! k
            = Some (OFunc f)) as Hck.
    { rewrite !lookup_insert_ne by congruence.
      destruct (Hlook k) as [-> _]. rewrite Hnone.
      destruct (Hentry k f Hmain Hk) as (v & -> & Hv). now rewrite Hv. }
    split; [exact Hck |].
    intros owner name fuel ->. unfold call_name.
    rewrite (heap_lookup_self h self _ child _ Hchild).
    cbn [set_globals __globals__]. rewrite Hck. cbn [call _inst _func].
    rewrite heap_lookup_new. reflexivity. }
  split.
  { intros k f Hmain Hk Hhas.
    apply hasattr_false in Hhas as [Ha Hc].
    destruct (Hlook k) as [_ ->]. rewrite Ha. unfold inherited_attr.
    destruct (Hentry k f Hmain Hk) as (v & -> & _). now rewrite Hc. }
  split.
  { rewrite lookup_insert_ne by discriminate. apply lookup_insert_eq. }
  split.
  { intros k.
    refine (proj1 (trampoline_late_bound _ self (length h) _ _ k _ _ _)).
    - exact (heap_lookup_self h self _ child _ Hchild).
    - cbn [set_globals __globals__].
      rewrite lookup_insert_ne by discriminate. apply lookup_insert_eq.
    - apply heap_lookup_new. }
  intros h2 c2 p2 pi2 k. apply trampoline_late_bound.
Qed.

(** The statement at a page that leaves the footer to its layout: the
    page's own body, calling [footer], runs the layout's block. *)
Lemma extend_inherits_witness :
  match _extend [new_instance 0 Page ∅] 0 Layout with
  | Some (h', p) => call_name 1 h' 0 "footer"
  | None => None
  end = Some (RunBlock "Layout" "footer" 1).
Proof.
  destruct (extend_inherits [new_instance 0 Page ∅] 0 Layout
              (new_instance 0 Page ∅) eq_refl (new_instance_wf 0 Page ∅))
    as (h' & child' & p_inst & Hext & _ & _ & Hk & _).
  rewrite Hext.
  assert (__globals__ (new_instance 1 Layout (_context (new_instance 0 Page ∅)))
            !! "footer"
          = Some (OFunc (MkTplFunc (BlockCode "Layout" "footer") (Some 1))))
    as Hp by (vm_compute; reflexivity).
  assert (__globals__ (new_instance 0 Page ∅) !! "footer" = None) as Hc
    by (vm_compute; reflexivity).
  assert ("footer" <> "__main__") as N1 by discriminate.
  assert ("footer" <> "parent") as N2 by discriminate.
  pose proof (Hk "footer" _ N1 N2 Hp Hc) as [_ Hcall].
  exact (Hcall "Layout" "footer" 0 eq_refl).
Defined.

(** An article extends a page, whose body then extends the layout: the
    page reaches the layout's footer from its own body and through the
    trampoline that became its attribute; and when the page is given a
    second parent, the same trampoline runs the footer of that one. *)
Lemma trampoline_follows_parent :
  match _extend [new_instance 0 Article ∅] 0 Page with
  | Some (h1, page) =>
      match _extend h1 page Layout with
      | Some (h2, layout) =>
          Some (page, layout,
                call_name 1 h2 page "footer",
                match h2 !! page with
                | Some i => inst_attrs i !! "footer"
                | None => None
                end,
                call 2 h2 (MkTplFunc (Trampoline "footer") (Some page)),
                match _extend h2 page Layout with
                | Some (h3, layout') =>
                    call 2 h3 (MkTplFunc (Trampoline "footer") (Some page))
                | None => None
                end)
      | None => None
      end
  | None => None
  end
  = Some (1, 2,
          Some (RunBlock "Layout" "footer" 2),
          Some (OFunc (MkTplFunc (Trampoline "footer") (Some 1))),
          Some (RunBlock "Layout" "footer" 2),
          Some (RunBlock "Layout" "footer" 3)).
Proof. vm_compute. reflexivity. Qed.

(** A block of the parent that is called [parent] does not stay in the
    child's namespace: the entry of that name is the parent instance. *)
Lemma extend_parent_block_not_inherited :
  __globals__ (new_instance 1 ParentBlock
                 (_context (new_instance 0 Article ∅))) !! "parent"
  = Some (OFunc (MkTplFunc (BlockCode "ParentBlock" "parent") (Some 1))) /\
  __globals__ (new_instance 0 Article ∅) !! "parent" = None /\
  (exists h' p_inst child',
     _extend [new_instance 0 Article ∅] 0 ParentBlock = Some (h', 1) /\
     h' !! 1 = Some p_inst /\ h' !! 0 = Some child' /\
     __globals__ p_inst !! "parent"
     = Some (OFunc (MkTplFunc (BlockCode "ParentBlock" "parent") (Some 1))) /\
     __globals__ child' !! "parent" = Some (OInst 1)) /\
  ~ (forall (h : heap) self parent child h' p child' k f,
       h !! self = Some child ->
       _extend h self parent = Some (h', p) ->
       h' !! self = Some child' ->
       k <> "__main__" ->
       __globals__ (new_instance (length h) parent (_context child)) !! k
       = Some (OFunc f) ->
       __globals__ child !! k = None ->
       __globals__ child' !! k = Some (OFunc f)).
Proof.
  assert (__globals__ (new_instance 1 ParentBlock
                         (_context (new_instance 0 Article ∅))) !! "parent"
          = Some (OFunc (MkTplFunc (BlockCode "ParentBlock" "parent") (Some 1))))
    as Hp0 by (vm_compute; reflexivity).
  assert (__globals__ (new_instance 0 Article ∅) !! "parent" = None) as Hc0
    by (vm_compute; reflexivity).
  assert (exists h' p_inst child',
     _extend [new_instance 0 Article ∅] 0 ParentBlock = Some (h', 1) /\
     h' !! 1 = Some p_inst /\ h' !! 0 = Some child' /\
     __globals__ p_inst !! "parent"
     = Some (OFunc (MkTplFunc (BlockCode "ParentBlock" "parent") (Some 1))) /\
     __globals__ child' !! "parent" = Some (OInst 1)) as Hex.
  { eexists _, _, _. split.
    { apply (extend_result [new_instance 0 Article ∅] 0 ParentBlock
               (new_instance 0 Article ∅) (OInst 0) eq_refl).
      vm_compute. reflexivity. }
    split; [apply (heap_lookup_new [new_instance 0 Article ∅]) |].
    split; [apply (heap_lookup_self [new_instance 0 Article ∅] 0 _
                     (new_instance 0 Article ∅)); reflexivity |].
    split; vm_compute; reflexivity. }
  split; [exact Hp0 |]. split; [exact Hc0 |]. split; [exact Hex |].
  intros Hall. destruct Hex as (h' & p_inst & child' & Hext & _ & Hc & _ & Hpar).
  assert ("parent" <> "__main__") as Hne by discriminate.
  pose proof (Hall [new_instance 0 Article ∅] 0 ParentBlock
                (new_instance 0 Article ∅) h' 1 child' "parent"
                (MkTplFunc (BlockCode "ParentBlock" "parent") (Some 1))
                eq_refl Hext Hc Hne Hp0 Hc0) as Habs.
  rewrite Hpar in Habs. discriminate.
Qed.

End ExtendClaims.

(** * Further properties of the runtime *)

(** ** The switch stack *)

Section SwitchStackFacts.
Import SwitchStack.

Lemma last_none_nil {A : Type} (l : list A) : last l = None <-> l = [].
Proof.
  split; [| now intros ->].
  destruct l as [|x l] using rev_ind; [reflexivity |].
  rewrite last_snoc. discriminate.
Qed.

(** X1.  Inside a switch, [case] compares with the target of the innermost
    open switch, whatever lies below it, and closing a switch brings back
    the stack as it was, so that after a nested switch the comparisons are
    against the target of the enclosing one again. *)
Theorem switch_innermost (st : list value) (outer inner obj : value) :
  _case (_push_switch st outer) obj = Some (py_eq obj outer) /\
  _pop_switch (_push_switch st outer) = Some st /\
  _case (_push_switch (_push_switch st outer) inner) obj
  = Some (py_eq obj inner) /\
  (match _pop_switch (_push_switch (_push_switch st outer) inner) with
   | Some st' => _case st' obj
   | None => None
   end) = Some (py_eq obj outer) /\
  _case (_push_switch [] (VInt 2)) (VInt 2) = Some true /\
  _case (_push_switch [] (VInt 2)) (VInt 3) = Some false /\
  _pop_switch (_push_switch [] (VInt 2)) = Some [].
Proof.
  unfold _case, _pop_switch, _push_switch.
  rewrite !last_snoc, !removelast_last, last_snoc.
  repeat split; reflexivity.
Qed.

(** X2.  [case] and the two pops raise exactly on an empty stack: a [case]
    outside every switch, and a pop without a push before it. *)
Theorem empty_stack_raises (sw : list value) (ws : list (list value))
  (obj : value) :
  (_case sw obj = None <-> sw = []) /\
  (_pop_switch sw = None <-> sw = []) /\
  (WithStack._pop_with ws = None <-> ws = []).
Proof.
  unfold _case, _pop_switch, WithStack._pop_with.
  repeat split; intros H;
    try (subst; reflexivity);
    apply last_none_nil;
    match goal with
    | H : match last ?l with _ => _ end = None |- _ =>
        destruct (last l); [discriminate | reflexivity]
    end.
Qed.

End SwitchStackFacts.

(** ** Nested with-scopes *)

Section NestedWithFacts.
Import WithStack.

(** X3.  Scopes nest: after two pushes the first pop gives the inner
    capture and leaves the outer scope on top, the second gives the outer
    capture and the stack from before both; a push makes the stack one
    entry longer whatever the names are, even none. *)
Theorem with_scopes_nest (st : with_stack)
  (outer inner : gmap string value) (vars_outer vars_inner : list string) :
  _pop_with (_push_with (_push_with st outer vars_outer) inner vars_inner)
  = Some (capture inner vars_inner, _push_with st outer vars_outer) /\
  (match _pop_with
           (_push_with (_push_with st outer vars_outer) inner vars_inner) with
   | Some (_, st') => _pop_with st'
   | None => None
   end) = Some (capture outer vars_outer, st) /\
  length (_push_with st outer vars_outer) = S (length st) /\
  _pop_with (_push_with st outer []) = Some ([], st).
Proof.
  unfold _push_with. rewrite !pop_push. repeat split.
  rewrite length_app. cbn. lia.
Qed.

End NestedWithFacts.

(** ** Collect and render *)

Section CollectRenderFacts.
Import Collect Render.

Lemma join_app (a b : list string) : join (a ++ b) = join a ++ join b.
Proof.
  unfold join. induction a as [|x a IH]; cbn [app fold_right];
    [reflexivity |].
  rewrite IH. symmetry. apply append_assoc.
Qed.

Lemma fragments_app (a b : list value) :
  fragments (a ++ b) = (fragments a ++ fragments b)%list.
Proof. unfold fragments. now rewrite List.filter_app, map_app. Qed.

Lemma collect_of_fragments (it : list value) :
  _collect it = match fragments it with
                | [] => VNone
                | r => VStr (join r)
                end.
Proof. unfold _collect. now rewrite collect_loop_fragments. Qed.

(** X4.  Collecting two sequences one after the other: nothing when both
    give nothing, the text of the one that gives some when the other gives
    nothing, and the two texts appended otherwise; parts that are [None]
    can be dropped beforehand without changing the result. *)
Theorem collect_concat (it1 it2 : list value) :
  _collect (it1 ++ it2) =
  match _collect it1, _collect it2 with
  | VStr s, VStr t => VStr (s ++ t)
  | VStr s, _ => VStr s
  | _, r => r
  end /\
  _collect (List.filter present it1) = _collect it1.
Proof.
  split.
  - rewrite !collect_of_fragments, fragments_app.
    destruct (fragments it1) as [|x r1]; [reflexivity |].
    destruct (fragments it2) as [|y r2].
    + now rewrite app_nil_r.
    + cbn [app]. f_equal. exact (join_app (x :: r1) (y :: r2)).
  - assert (List.filter present (List.filter present it1)
            = List.filter present it1) as E.
    { induction it1 as [|v it IH]; [reflexivity |].
      cbn [List.filter]. destruct (present v) eqn:Ev; cbn [List.filter];
        rewrite ?Ev; now rewrite IH. }
    rewrite (collect_of_fragments (List.filter present it1)),
      (collect_of_fragments it1).
    unfold fragments. now rewrite E.
Qed.

(** X5.  [render] is the text of every chunk it receives, in order, so
    rendering is additive over the chunks; and on chunks none of which is
    [None], as the flattener delivers them, it agrees with [collect]
    whenever there is at least one chunk, while for no chunk at all
    [render] is the empty text and [collect] is [None]. *)
Theorem render_chunks (chunks1 chunks2 : list value) :
  Forall (fun v => v <> VNone) chunks1 ->
  render (chunks1 ++ chunks2) = render chunks1 ++ render chunks2 /\
  length (iter_chunks chunks1) = length chunks1 /\
  _collect chunks1 = match chunks1 with
                     | [] => VNone
                     | _ => VStr (render chunks1)
                     end /\
  render [] = EmptyString.
Proof.
  intros Hall. split; [| split; [| split; [| reflexivity]]].
  - unfold render, iter_chunks. rewrite map_app. apply join_app.
  - apply length_map.
  - rewrite collect_of_fragments.
    assert (fragments chunks1 = iter_chunks chunks1) as ->.
    { unfold fragments, iter_chunks. f_equal.
      induction Hall as [|v l Hv _ IH]; [reflexivity |].
      cbn [List.filter]. destruct v; try congruence; cbn [present];
        now rewrite IH. }
    unfold render. destruct chunks1; reflexivity.
Qed.

(** The statement at the chunks of a greeting. *)
Lemma render_chunks_witness :
  _collect [VStr "Hi, "; VStr "<b>"; VStr "World"; VStr "</b>"]
  = VStr "Hi, <b>World</b>".
Proof.
  assert (Forall (fun v => v <> VNone)
            [VStr "Hi, "; VStr "<b>"; VStr "World"; VStr "</b>"]) as H.
  { repeat constructor; discriminate. }
  destruct (render_chunks [VStr "Hi, "; VStr "<b>"; VStr "World"; VStr "</b>"]
              [] H) as (_ & _ & E & _).
  rewrite E. reflexivity.
Defined.

End CollectRenderFacts.

(** ** More on the escaper *)

Section EscaperMoreFacts.
Import Escaper.

Lemma entity_cases (c : ascii) :
  (c = "&"%char /\ entity c = "&amp;") \/
  (c = "<"%char /\ entity c = "&lt;") \/
  (c = ">"%char /\ entity c = "&gt;") \/
  (c = dquote /\ entity c = "&quot;") \/
  (c <> "&"%char /\ c <> "<"%char /\ c <> ">"%char /\ c <> dquote /\
   entity c = String c EmptyString).
Proof.
  unfold entity.
  destruct (Ascii.eqb_spec c "&") as [->|N1]; [now left |].
  destruct (Ascii.eqb_spec c "<") as [->|N2]; [right; now left |].
  destruct (Ascii.eqb_spec c ">") as [->|N3]; [right; right; now left |].
  destruct (Ascii.eqb_spec c dquote) as [->|N4];
    [right; right; right; now left |].
  right; right; right; right. repeat split; assumption.
Qed.

Lemma single_pass_injective (s t : string) :
  single_pass s = single_pass t -> s = t.
Proof.
  revert t. induction s as [|c s IH]; intros [|d t] H.
  - reflexivity.
  - exfalso. cbn [single_pass] in H.
    destruct (entity_cases d) as [[_ E]|[[_ E]|[[_ E]|[[_ E]|(_&_&_&_&E)]]]];
      rewrite E in H; discriminate.
  - exfalso. cbn [single_pass] in H.
    destruct (entity_cases c) as [[_ E]|[[_ E]|[[_ E]|[[_ E]|(_&_&_&_&E)]]]];
      rewrite E in H; discriminate.
  - cbn [single_pass] in H.
    destruct (entity_cases c)
      as [[Ec E]|[[Ec E]|[[Ec E]|[[Ec E]|(C1 & C2 & C3 & C4 & E)]]]];
      destruct (entity_cases d)
      as [[Ed E']|[[Ed E']|[[Ed E']|[[Ed E']|(D1 & D2 & D3 & D4 & E')]]]];
      rewrite E, E' in H; cbn [String.append] in H;
      try discriminate;
      try (injection H as H; subst; f_equal; now apply IH);
      try (injection H as Hd _; congruence).
Qed.

(** X6.  Escaping loses nothing: two texts with the same escaped form are
    the same text. *)
Theorem escape_injective (s t : string) :
  _escape (VStr s) = _escape (VStr t) -> s = t.
Proof.
  cbn [_escape py_str]. rewrite !escape_text_single_pass.
  intros H. injection H as H. now apply single_pass_injective.
Qed.

(** The statement at a text with an ampersand. *)
Lemma escape_injective_witness : "a&b" = "a&b".
Proof. exact (escape_injective "a&b" "a&b" eq_refl). Defined.

Lemma In_app_string (c : ascii) (a b : string) :
  In c (list_ascii_of_string (a ++ b)) <->
  In c (list_ascii_of_string a) \/ In c (list_ascii_of_string b).
Proof.
  induction a as [|x a IH]; cbn [String.append list_ascii_of_string In].
  - tauto.
  - rewrite IH. tauto.
Qed.

Lemma single_pass_chars (s : string) (c : ascii) :
  In c (list_ascii_of_string (single_pass s)) ->
  c <> "<"%char /\ c <> ">"%char /\ c <> dquote.
Proof.
  induction s as [|x s IH]; cbn [single_pass]; [intros [] |].
  rewrite In_app_string. intros [H|H]; [| now apply IH].
  destruct (entity_cases x)
    as [[_ E]|[[_ E]|[[_ E]|[[_ E]|(_ & C2 & C3 & C4 & E)]]]];
    rewrite E in H; cbn in H;
    repeat match goal with
           | H : _ \/ _ |- _ => destruct H as [<-|H]
           | H : False |- _ => destruct H
           end;
    try (repeat split; discriminate).
  repeat split; assumption.
Qed.

(** X7.  Whatever value is escaped, unless it is a flattener or brings
    its own [__html__], the result is a text without angle brackets and
    without double quote, so the value of a rendered attribute cannot end
    the quotes around it. *)
Theorem escape_leaves_no_markup (v : value) (c : ascii) :
  (forall text, v <> VFlattener text) ->
  (forall html text, v <> VHtml html text) ->
  v <> VNone ->
  In c (list_ascii_of_string (py_str (_escape v))) ->
  c <> "<"%char /\ c <> ">"%char /\ c <> dquote.
Proof.
  intros Hf Hh Hn.
  assert (_escape v = VStr (single_pass (py_str v))) as ->.
  { destruct v; cbn [_escape]; try (now rewrite escape_text_single_pass).
    - contradiction.
    - exfalso. now apply (Hf text).
    - exfalso. now apply (Hh html text). }
  cbn [py_str]. apply single_pass_chars.
Qed.

(** The statement at a text that tries to close the attribute. *)
Lemma escape_leaves_no_markup_witness :
  In "q"%char (list_ascii_of_string
                 (py_str (_escape (VStr (String dquote "><")))))
  /\ "q"%char <> dquote.
Proof.
  assert (In "q"%char (list_ascii_of_string
                         (py_str (_escape (VStr (String dquote "><"))))))
    as Hin.
  { cbn. tauto. }
  split; [exact Hin |].
  refine (proj2 (proj2 (escape_leaves_no_markup
            (VStr (String dquote "><")) "q"%char _ _ _ Hin)));
    intros; discriminate.
Defined.

End EscaperMoreFacts.

(** ** More on the attribute renderer *)

Section AttrRendererMoreFacts.
Import AttrRenderer.

Lemma filter_names_nodup (P : string * value -> bool)
  (l : list (string * value)) :
  List.NoDup (map fst l) -> List.NoDup (map fst (List.filter P l)).
Proof.
  induction l as [|x l IH]; intros Hnd; [constructor |].
  cbn [map] in Hnd. apply List.NoDup_cons_iff in Hnd as [Hx Hnd].
  cbn [List.filter]. destruct (P x); [| now apply IH].
  cbn [map]. constructor; [| now apply IH].
  intros Hin. apply Hx. apply in_map_iff in Hin as (y & Ey & Hy).
  apply List.filter_In in Hy as [Hy _]. rewrite <- Ey. now apply in_map.
Qed.

Lemma filter_permutation (P : string * value -> bool)
  (l l' : list (string * value)) :
  Permutation l l' -> Permutation (List.filter P l) (List.filter P l').
Proof.
  induction 1 as [|x l l' _ IH|x y l|l l' l'' _ IH1 _ IH2];
    cbn [List.filter].
  - constructor.
  - destruct (P x); [now constructor | exact IH].
  - destruct (P x), (P y); try reflexivity. apply perm_swap.
  - now rewrite IH1.
Qed.

Lemma filter_strongly_sorted (P : string * value -> bool)
  (l : list (string * value)) :
  StronglySorted name_lt l -> StronglySorted name_lt (List.filter P l).
Proof.
  induction 1 as [|x l _ IH Hx]; cbn [List.filter]; [constructor |].
  destruct (P x); [| exact IH]. constructor; [exact IH |].
  apply List.Forall_forall. intros y Hy.
  apply List.filter_In in Hy as [Hy _].
  rewrite List.Forall_forall in Hx. now apply Hx.
Qed.

Lemma sorted_filter (P : string * value -> bool)
  (l r : list (string * value)) :
  List.NoDup (map fst l) -> sorted l = Some r ->
  sorted (List.filter P l) = Some (List.filter P r).
Proof.
  intros Hnd Hr.
  destruct (sorted_names l Hnd) as (r0 & Hr0 & Hp & Hs).
  rewrite Hr in Hr0. injection Hr0 as <-.
  destruct (sorted_names (List.filter P l) (filter_names_nodup P l Hnd))
    as (r' & -> & Hp' & Hs').
  f_equal. apply (StronglySorted_unique_strong name_lt).
  - intros a b _ _ Hab Hba. exfalso. exact (string_ltb_asym _ _ Hab Hba).
  - exact Hs'.
  - now apply filter_strongly_sorted.
  - rewrite <- Hp'. now apply filter_permutation.
Qed.

Lemma omap_filter {A B : Type} (f : A -> option B) (P : A -> bool)
  (l : list A) :
  (forall x, P x = false -> f x = None) ->
  omap f (List.filter P l) = omap f l.
Proof.
  intros H.
  assert (forall y ys, omap f (y :: ys) =
                       match f y with
                       | Some z => z :: omap f ys
                       | None => omap f ys
                       end) as Hc by reflexivity.
  induction l as [|x l IH]; [reflexivity |].
  cbn [List.filter]. destruct (P x) eqn:E.
  - now rewrite !Hc, IH.
  - now rewrite Hc, (H x E).
Qed.

Lemma resolve_value_none (E : gset string) (k : string) :
  resolve_value E k VNone = VNone.
Proof. unfold resolve_value. cbn. now rewrite andb_false_r. Qed.

(** X8.  An attribute whose value is [None] leaves no trace: the
    fragments of a mapping are those of the mapping without its [None]
    entries; and [None] in place of the attributes, like an empty mapping,
    yields nothing. *)
Theorem render_attrs_none_dropped (HTML_EMPTY_ATTRS : gset string)
  (items : list (string * value)) (mode : string) :
  List.NoDup (map fst items) ->
  _render_attrs HTML_EMPTY_ATTRS
    (AttrsMapping (List.filter (fun kv => Collect.present (snd kv)) items)) mode
  = _render_attrs HTML_EMPTY_ATTRS (AttrsMapping items) mode /\
  _render_attrs HTML_EMPTY_ATTRS AttrsNone mode = Some [] /\
  _render_attrs HTML_EMPTY_ATTRS (AttrsMapping []) mode = Some [].
Proof.
  intros Hnd. split; [| split; reflexivity].
  destruct (sorted_names items Hnd) as (r & Hr & _ & _).
  unfold _render_attrs.
  rewrite (sorted_filter _ items r Hnd Hr), Hr. f_equal.
  apply omap_filter. intros [k v] Hv. cbn [fst snd] in *.
  destruct v; try discriminate.
  apply render_attr_omitted, resolve_value_none.
Qed.

(** The statement at a link without target. *)
Lemma render_attrs_none_dropped_witness :
  _render_attrs ∅
    (AttrsMapping [("id", VStr "x"); ("href", VNone)]) "xml"
  = _render_attrs ∅ (AttrsMapping [("id", VStr "x")]) "xml".
Proof.
  assert (List.NoDup (map fst [("id", VStr "x"); ("href", VNone)])) as Hnd.
  { repeat constructor; cbn; intuition discriminate. }
  symmetry.
  exact (proj1 (render_attrs_none_dropped ∅
                  [("id", VStr "x"); ("href", VNone)] "xml" Hnd)).
Defined.

Lemma pretty_N_char_digit (x : N) :
  In (pretty_N_char x) (list_ascii_of_string "0123456789").
Proof.
  unfold pretty_N_char. repeat case_match;
    cbn [list_ascii_of_string In]; repeat first [left; reflexivity | right].
Qed.

Lemma pretty_N_go_chars (x : N) (s : string) (c : ascii) :
  In c (list_ascii_of_string (pretty_N_go x s)) ->
  In c (list_ascii_of_string "0123456789") \/ In c (list_ascii_of_string s).
Proof.
  revert s. induction (N.lt_wf_0 x) as [x _ IH]. intros s.
  destruct (decide (0 < x)%N) as [Hx|Hx].
  - rewrite pretty_N_go_step by exact Hx. intros H.
    apply IH in H; [| now apply N.div_lt].
    destruct H as [H|H]; [now left |].
    cbn [list_ascii_of_string In] in H. destruct H as [<-|H]; [| now right].
    left. apply pretty_N_char_digit.
  - assert (x = 0%N) as -> by lia. rewrite pretty_N_go_0. now right.
Qed.

(** The decimal text of an integer is made of digits and the minus sign. *)
Lemma pretty_Z_chars (n : Z) (c : ascii) :
  In c (list_ascii_of_string (pretty n)) ->
  In c (list_ascii_of_string "-0123456789").
Proof.
  assert (forall p, In c (list_ascii_of_string (pretty (Npos p))) ->
                    In c (list_ascii_of_string "0123456789")) as Hpos.
  { intros p. unfold pretty, pretty_N.
    destruct (decide (N.pos p = 0%N)); [discriminate |].
    intros H. apply pretty_N_go_chars in H as [H|H]; [exact H | destruct H]. }
  destruct n as [|p|p]; unfold pretty, pretty_Z.
  - cbn [list_ascii_of_string In]. intros [<-|[]]. right. now left.
  - intros H. right. exact (Hpos p H).
  - cbn [String.append list_ascii_of_string In]. intros [<-|H]; [now left |].
    right. exact (Hpos p H).
Qed.

(** X9.  On an empty attribute the integers 1 and 0 count as [True] and
    [False]: 1 is rendered like [True] and an attribute set to 0 is
    dropped.  Any other integer is kept as the value: in a mode that
    starts with [html] the attribute is rendered bare, its value unseen,
    and in any other mode as the name with the integer as value.  An
    attribute that is no empty attribute is rendered as the name with its
    value, whatever the value (booleans included) and the mode. *)
Theorem empty_attr_integers (HTML_EMPTY_ATTRS : gset string)
  (mode k other : string) (n : Z) (v : value) :
  k ∈ HTML_EMPTY_ATTRS ->
  other ∉ HTML_EMPTY_ATTRS ->
  resolve_value HTML_EMPTY_ATTRS k (VInt 1) = VStr k /\
  render_attr HTML_EMPTY_ATTRS mode k (VInt 1)
  = render_attr HTML_EMPTY_ATTRS mode k (VBool true) /\
  render_attr HTML_EMPTY_ATTRS mode k (VInt 0) = None /\
  (n <> 0%Z -> n <> 1%Z ->
   resolve_value HTML_EMPTY_ATTRS k (VInt n) = VInt n /\
   render_attr HTML_EMPTY_ATTRS mode k (VInt n)
   = if String.prefix "html" mode
     then Some (" " ++ lower k)
     else Some (" " ++ k ++ "="
                ++ String dquote (pretty n ++ String dquote EmptyString))) /\
  resolve_value HTML_EMPTY_ATTRS other v = v /\
  (v <> VNone ->
   render_attr HTML_EMPTY_ATTRS mode other v
   = Some (" " ++ other ++ "="
           ++ String dquote (py_str (Escaper._escape v)
                             ++ String dquote EmptyString))).
Proof.
  intros Hk Ho.
  assert (is_empty_attr HTML_EMPTY_ATTRS k = true) as Ek
    by now apply bool_decide_eq_true_2.
  assert (is_empty_attr HTML_EMPTY_ATTRS other = false) as Eo
    by now apply bool_decide_eq_false_2.
  assert (resolve_value HTML_EMPTY_ATTRS other v = v) as Hv.
  { unfold resolve_value. now rewrite Eo. }
  split; [unfold resolve_value; now rewrite Ek |].
  split; [unfold render_attr, resolve_value; now rewrite Ek |].
  split; [unfold render_attr, resolve_value; now rewrite Ek |].
  split.
  { intros N0 N1.
    assert (resolve_value HTML_EMPTY_ATTRS k (VInt n) = VInt n) as Hn.
    { unfold resolve_value, in_true_false, py_eq. rewrite Ek.
      cbn [py_num andb].
      rewrite (bool_decide_eq_false_2 (n = 1%Z)) by exact N1.
      rewrite (bool_decide_eq_false_2 (n = 0%Z)) by exact N0. reflexivity. }
    split; [exact Hn |].
    unfold render_attr. rewrite Hn, Ek, andb_true_r.
    destruct (String.prefix "html" mode); [reflexivity |].
    unfold name_value. cbn [Escaper._escape py_str].
    rewrite escape_text_single_pass.
    assert (Escaper.single_pass (pretty n) = pretty n) as ->; [| reflexivity].
    apply single_pass_plain. apply re_escape_search_spec.
    intros c Hc. apply pretty_Z_chars in Hc.
    cbn [list_ascii_of_string In] in Hc.
    repeat match goal with
           | H : _ \/ _ |- _ => destruct H as [<-|H]
           | H : False |- _ => destruct H
           end; repeat split; discriminate. }
  split; [exact Hv |].
  intros Hn. unfold render_attr. rewrite Hv, Eo, andb_false_r.
  destruct v; first [congruence | reflexivity].
Qed.

(** The statement at [checked] set to 0, and at a [value] set to 0. *)
Lemma empty_attr_integers_witness :
  _render_attrs {["checked"; "selected"]}
    (AttrsMapping [("checked", VInt 0)]) "html" = Some [] /\
  _render_attrs {["checked"; "selected"]}
    (AttrsMapping [("value", VInt 0)]) "html"
  = Some [" value=" ++ String dquote (String "0" (String dquote EmptyString))].
Proof.
  assert ("checked" ∈ ({["checked"; "selected"]} : gset string)) as Hk.
  { apply elem_of_union_l, elem_of_singleton. reflexivity. }
  assert ("value" ∉ ({["checked"; "selected"]} : gset string)) as Ho.
  { intros H. apply elem_of_union in H as [H|H];
      apply elem_of_singleton in H; discriminate. }
  destruct (empty_attr_integers {["checked"; "selected"]} "html" "checked"
              "value" 0 (VInt 0) Hk Ho) as (_ & _ & H0 & _ & _ & Hv).
  split.
  - cbn [_render_attrs sorted insert_stable omap list_omap fst snd].
    now rewrite H0.
  - cbn [_render_attrs sorted insert_stable omap list_omap fst snd].
    rewrite Hv by discriminate. reflexivity.
Defined.

End AttrRendererMoreFacts.

(** ** Construction of an instance *)

Section ConstructionFacts.
Import Inheritance.

Lemma bind_methods_context (self : nat) (methods : list (string * func))
  (i : instance) :
  _context (bind_methods self methods i) = _context i.
Proof.
  unfold bind_methods. revert i.
  induction methods as [|m ms IH]; intros i; [reflexivity |].
  cbn [fold_left]. now rewrite IH.
Qed.

(** The namespace and the attributes after the loop over [__methods__],
    for a name that is no method. *)
Lemma bind_methods_other (self : nat) (methods : list (string * func))
  (i : instance) (k : string) :
  ~ In k (map fst methods) ->
  __globals__ (bind_methods self methods i) !! k = __globals__ i !! k /\
  inst_attrs (bind_methods self methods i) !! k = inst_attrs i !! k.
Proof.
  unfold bind_methods. revert i.
  induction methods as [|m ms IH]; intros i Hk; [now split |].
  cbn [map In] in Hk. cbn [fold_left].
  destruct (IH (set_globals
                  (<[fst m:=OFunc (bind_instance (snd m) self)]> (__globals__ i))
                  (set_attrs
                     (<[fst m:=OFunc (bind_instance (snd m) self)]>
                        (inst_attrs i)) i))) as [-> ->]; [tauto |].
  cbn [set_globals set_attrs __globals__ inst_attrs].
  rewrite !lookup_insert_ne by tauto. now split.
Qed.

(** The same for a method, when the names of the methods are distinct. *)
Lemma bind_methods_method (self : nat) (methods : list (string * func))
  (i : instance) (k : string) (f : func) :
  List.NoDup (map fst methods) ->
  In (k, f) methods ->
  __globals__ (bind_methods self methods i) !! k
  = Some (OFunc (bind_instance f self)) /\
  inst_attrs (bind_methods self methods i) !! k
  = Some (OFunc (bind_instance f self)).
Proof.
  revert i. induction methods as [|m ms IH]; intros i Hnd Hin; [destruct Hin |].
  cbn [map] in Hnd. apply List.NoDup_cons_iff in Hnd as [Hm Hnd].
  destruct Hin as [->|Hin].
  - change (bind_methods self ((k, f) :: ms) i)
      with (bind_methods self ms
              (set_globals
                 (<[k:=OFunc (bind_instance f self)]> (__globals__ i))
                 (set_attrs (<[k:=OFunc (bind_instance f self)]> (inst_attrs i))
                    i))).
    destruct (bind_methods_other self ms
                (set_globals
                   (<[k:=OFunc (bind_instance f self)]> (__globals__ i))
                   (set_attrs
                      (<[k:=OFunc (bind_instance f self)]> (inst_attrs i)) i))
                k Hm) as [-> ->].
    cbn [set_globals set_attrs __globals__ inst_attrs].
    now rewrite !lookup_insert_eq.
  - exact (IH _ Hnd Hin).
Qed.

(** X10.  Whatever the caller passes as context wins: every binding of
    the context is the binding of that name in the new instance's
    namespace, also when a block or [self] or [local] has the same name;
    a name the context does not bind keeps what the class gave it, and
    [self] and [local], unless a block or the context takes the name,
    are the instance itself. *)
Theorem context_shadows (self : nat) (cls : template_class)
  (context : gmap string obj) (k : string) (v : obj) :
  context !! k = Some v ->
  __globals__ (new_instance self cls context) !! k = Some v /\
  _context (new_instance self cls context) = context /\
  (forall k', context !! k' = None ->
     ~ In k' (map fst (__methods__ cls)) ->
     (k' = "self" \/ k' = "local") ->
     __globals__ (new_instance self cls context) !! k' = Some (OInst self)) /\
  (forall k', context !! k' = None ->
     ~ In k' (map fst (__methods__ cls)) ->
     ~ In k' ["value_of"; "__kj__"; "__builtins__"; "Markup"; "literal";
              "defined"; "self"; "local"] ->
     __globals__ (new_instance self cls context) !! k'
     = base_globals cls !! k').
Proof.
  intros Hk. unfold new_instance. cbn [set_globals set_attrs __globals__ _context].
  split; [now apply lookup_union_Some_l |].
  split; [apply bind_methods_context |].
  split.
  - intros k' Hc Hm Hsl. rewrite lookup_union_r by exact Hc.
    destruct (bind_methods_other self (__methods__ cls)
                (MkInstance cls context
                   (<["value_of":=OOther "value_of"]>
                      (<["__kj__":=OOther "kajiki"]>
                         (<["__builtins__":=OOther "__builtins__"]>
                            (<["Markup":=OOther "literal"]>
                               (<["literal":=OOther "literal"]>
                                  (<["defined":=OOther "defined"]>
                                     (<["self":=OInst self]>
                                        (<["local":=OInst self]>
                                           (base_globals cls)))))))))
                   (<["__globals__":=OOther "__globals__"]>
                      (<["_context":=OOther "_context"]> ∅))) k' Hm)
      as [-> _].
    cbn [__globals__]. destruct Hsl as [->| ->].
    + rewrite !lookup_insert_ne by discriminate. apply lookup_insert_eq.
    + rewrite !lookup_insert_ne by discriminate. apply lookup_insert_eq.
  - intros k' Hc Hm Hn. rewrite lookup_union_r by exact Hc.
    destruct (bind_methods_other self (__methods__ cls)
                (MkInstance cls context
                   (<["value_of":=OOther "value_of"]>
                      (<["__kj__":=OOther "kajiki"]>
                         (<["__builtins__":=OOther "__builtins__"]>
                            (<["Markup":=OOther "literal"]>
                               (<["literal":=OOther "literal"]>
                                  (<["defined":=OOther "defined"]>
                                     (<["self":=OInst self]>
                                        (<["local":=OInst self]>
                                           (base_globals cls)))))))))
                   (<["__globals__":=OOther "__globals__"]>
                      (<["_context":=OOther "_context"]> ∅))) k' Hm)
      as [-> _].
    cbn [__globals__]. cbn [In] in Hn.
    rewrite !lookup_insert_ne by (intros <-; tauto). reflexivity.
Qed.

(** The statement at a context that binds the name of a block. *)
Lemma context_shadows_witness :
  __globals__ (new_instance 0 Layout {["header" := OOther "text"]}) !! "header"
  = Some (OOther "text").
Proof.
  exact (proj1 (context_shadows 0 Layout {["header" := OOther "text"]}
                  "header" (OOther "text") (lookup_singleton_eq _ _))).
Defined.

(** X11.  Every exposed function of the class is bound to the new
    instance and stored twice, as the attribute of its name and as the
    entry of its name in the namespace, the latter unless the context
    binds the name; calling it runs the block over the instance's own
    namespace. *)
Theorem methods_bound (self : nat) (cls : template_class)
  (context : gmap string obj) (k : string) (f : func) :
  List.NoDup (map fst (__methods__ cls)) ->
  In (k, f) (__methods__ cls) ->
  (~ In k ["__kj__"; "_switch_stack"; "_with_stack"] ->
   inst_attrs (new_instance self cls context) !! k
   = Some (OFunc (MkTplFunc f (Some self)))) /\
  (context !! k = None ->
   __globals__ (new_instance self cls context) !! k
   = Some (OFunc (MkTplFunc f (Some self)))) /\
  (forall (h : list instance) owner name fuel,
     h !! self = Some (new_instance self cls context) ->
     f = BlockCode owner name ->
     call (S fuel) h (MkTplFunc f (Some self))
     = Some (RunBlock owner name self)).
Proof.
  intros Hnd Hin.
  unfold new_instance. cbn [set_globals set_attrs __globals__ inst_attrs].
  split; [| split].
  - intros Hn. cbn [In] in Hn.
    rewrite !lookup_insert_ne by (intros <-; tauto).
    now apply bind_methods_method.
  - intros Hc. rewrite lookup_union_r by exact Hc.
    now apply bind_methods_method.
  - intros h owner name fuel Hh ->. cbn [call _inst _func]. now rewrite Hh.
Qed.

(** The statement at the footer of the layout. *)
Lemma methods_bound_witness :
  inst_attrs (new_instance 3 Layout ∅) !! "footer"
  = Some (OFunc (MkTplFunc (BlockCode "Layout" "footer") (Some 3))).
Proof.
  assert (List.NoDup (map fst (__methods__ Layout))) as Hnd.
  { repeat constructor; cbn; intuition discriminate. }
  assert (In ("footer", BlockCode "Layout" "footer") (__methods__ Layout))
    as Hin.
  { cbn. tauto. }
  refine (proj1 (methods_bound 3 Layout ∅ "footer" _ Hnd Hin) _).
  cbn. intuition discriminate.
Defined.

End ConstructionFacts.

(** ** What [_extend] keeps *)

Section ExtendInvariants.
Import Inheritance.

Lemma find_inherited_keeps (self : nat) (p_globals : gmap string obj)
  (child : instance) (k : string) (v : obj) :
  (__globals__ child !! k = Some v ->
   __globals__ (find_inherited self p_globals child) !! k = Some v) /\
  (inst_attrs child !! k = Some v ->
   inst_attrs (find_inherited self p_globals child) !! k = Some v).
Proof.
  destruct (find_inherited_lookup self p_globals child) as (_ & _ & H).
  cbv zeta in H. destruct (H k) as [Hg Ha].
  split; intros E; [rewrite Hg | rewrite Ha]; now rewrite E.
Qed.




(** X13.  [self] names the same object in the child and in the parent
    [extend] creates: the parent takes the child's binding and the child
    keeps it, so along a chain of parents [self] stays the outermost
    template. *)
Theorem extend_keeps_self (h : list instance) (self : nat)
  (parent : template_class) (child : instance) (s : obj) :
  h !! self = Some child ->
  __globals__ child !! "self" = Some s ->
  exists h' child' p_inst,
    _extend h self parent = Some (h', length h) /\
    h' !! self = Some child' /\
    h' !! length h = Some p_inst /\
    __globals__ child' !! "self" = Some s /\
    __globals__ p_inst !! "self" = Some s /\
    (Forall (fun i => __globals__ i !! "self" = Some s) h ->
     Forall (fun i => __globals__ i !! "self" = Some s) h').
Proof.
  intros Hchild Hself.
  pose proof (extend_result h self parent child s Hchild Hself) as Hext.
  cbv zeta in Hext.
  assert (<["local":=OInst self]>
            (<["parent":=OInst (length h)]>
               (__globals__
                  (find_inherited self
                     (find_overrides (__globals__ child)
                        (__globals__
                           (new_instance (length h) parent (_context child))))
                     child))) !! "self" = Some s) as Hs.
  { rewrite !lookup_insert_ne by discriminate.
    now apply find_inherited_keeps. }
  eexists _, _, _. split; [exact Hext |].
  split; [exact (heap_lookup_self h self _ child _ Hchild) |].
  split; [apply heap_lookup_new |].
  cbn [set_globals __globals__].
  split; [exact Hs |].
  split; [apply lookup_insert_eq |].
  intros Hall. apply Forall_app. split.
  - apply Forall_insert; [exact Hall | exact Hs].
  - constructor; [| constructor]. cbn [set_globals __globals__].
    apply lookup_insert_eq.
Qed.

(** The statement along a chain: an article extends a page, which
    extends the layout, and [self] in the layout is the article. *)
Lemma extend_keeps_self_witness :
  match _extend [new_instance 0 Article ∅] 0 Page with
  | Some (h1, page) =>
      match _extend h1 page Layout with
      | Some (h2, layout) =>
          match h2 !! layout with
          | Some i => __globals__ i !! "self"
          | None => None
          end
      | None => None
      end
  | None => None
  end = Some (OInst 0).
Proof.
  destruct (extend_keeps_self [new_instance 0 Article ∅] 0 Page
              (new_instance 0 Article ∅) (OInst 0) eq_refl)
    as (h1 & _ & page & He1 & _ & Hp1 & _ & Hs1 & _).
  { vm_compute. reflexivity. }
  rewrite He1.
  destruct (extend_keeps_self h1 (length [new_instance 0 Article ∅]) Layout
              page (OInst 0) Hp1 Hs1)
    as (h2 & _ & layout & He2 & _ & Hp2 & _ & Hs2 & _).
  rewrite He2, Hp2. exact Hs2.
Defined.

(** X14.  [extend] takes nothing away from the child: every entry of its
    namespace is still there, with the same value unless the name is
    [parent] or [local], which now are the new parent and the child
    itself; every attribute it had is unchanged; and its context and
    class are the same. *)
Theorem extend_keeps_child (h : list instance) (self : nat)
  (parent : template_class) (child : instance) :
  h !! self = Some child ->
  wf_instance child ->
  exists h' child',
    _extend h self parent = Some (h', length h) /\
    h' !! self = Some child' /\
    (forall k v, k <> "parent" -> k <> "local" ->
       __globals__ child !! k = Some v -> __globals__ child' !! k = Some v) /\
    (forall k, is_Some (__globals__ child !! k) ->
       is_Some (__globals__ child' !! k)) /\
    (forall k a, inst_attrs child !! k = Some a ->
       inst_attrs child' !! k = Some a) /\
    __globals__ child' !! "local" = Some (OInst self) /\
    __globals__ child' !! "parent" = Some (OInst (length h)) /\
    _context child' = _context child /\
    inst_class child' = inst_class child.
Proof.
  intros Hchild [[s Hself] _].
  pose proof (extend_result h self parent child s Hchild Hself) as Hext.
  cbv zeta in Hext.
  set (pg := find_overrides (__globals__ child)
               (__globals__ (new_instance (length h) parent (_context child))))
    in *.
  destruct (find_inherited_lookup self pg child) as (Hcls & Hctx & _).
  cbv zeta in Hcls, Hctx.
  eexists _, _. split; [exact Hext |].
  split; [exact (heap_lookup_self h self _ child _ Hchild) |].
  cbn [set_globals __globals__ inst_attrs _context inst_class].
  split.
  { intros k v Hp Hl Hk. rewrite !lookup_insert_ne by congruence.
    now apply find_inherited_keeps. }
  split.
  { intros k [v Hk].
    destruct (decide ("local" = k)) as [<-|Hl];
      [rewrite lookup_insert_eq; eauto |].
    rewrite lookup_insert_ne by exact Hl.
    destruct (decide ("parent" = k)) as [<-|Hp];
      [rewrite lookup_insert_eq; eauto |].
    rewrite lookup_insert_ne by exact Hp. exists v.
    now apply find_inherited_keeps. }
  split; [intros k a Ha; now apply find_inherited_keeps |].
  split; [apply lookup_insert_eq |].
  split; [rewrite lookup_insert_ne by discriminate; apply lookup_insert_eq |].
  split; assumption.
Qed.

(** The statement at a page that extends the layout: its own header
    stays its own. *)
Lemma extend_keeps_child_witness :
  match _extend [new_instance 0 Page ∅] 0 Layout with
  | Some (h', _) =>
      match h' !! 0 with
      | Some child' => __globals__ child' !! "header"
      | None => None
      end
  | None => None
  end = Some (OFunc (MkTplFunc (BlockCode "Page" "header") (Some 0))).
Proof.
  destruct (extend_keeps_child [new_instance 0 Page ∅] 0 Layout
              (new_instance 0 Page ∅) eq_refl (new_instance_wf 0 Page ∅))
    as (h' & child' & He & Hc & Hk & _).
  rewrite He, Hc.
  assert (__globals__ (new_instance 0 Page ∅) !! "header"
          = Some (OFunc (MkTplFunc (BlockCode "Page" "header") (Some 0))))
    as Hh by (vm_compute; reflexivity).
  assert ("header" <> "parent") as N1 by discriminate.
  assert ("header" <> "local") as N2 by discriminate.
  exact (Hk "header" _ N1 N2 Hh).
Defined.

(** X15.  Only exposed functions travel upwards: under a name the child
    binds to something that is no exposed function, or does not bind, and
    under [__main__], the parent's namespace holds what the parent class
    and the context put there; the cross-links [child], [local] and
    [self] apart.  The parent is built from the child's context. *)
Theorem extend_parent_own (h : list instance) (self : nat)
  (parent : template_class) (child : instance) :
  h !! self = Some child ->
  wf_instance child ->
  exists h' p_inst,
    _extend h self parent = Some (h', length h) /\
    h' !! length h = Some p_inst /\
    _context p_inst = _context child /\
    (forall k,
       k <> "child" -> k <> "local" -> k <> "self" ->
       (k = "__main__" \/ forall f, __globals__ child !! k <> Some (OFunc f)) ->
       __globals__ p_inst !! k
       = __globals__ (new_instance (length h) parent (_context child)) !! k) /\
    inst_attrs p_inst
    = inst_attrs (new_instance (length h) parent (_context child)).
Proof.
  intros Hchild [[s Hself] _].
  pose proof (extend_result h self parent child s Hchild Hself) as Hext.
  cbv zeta in Hext.
  eexists _, _. split; [exact Hext |].
  split; [apply heap_lookup_new |].
  cbn [set_globals __globals__ inst_attrs _context].
  split.
  { unfold new_instance. cbn [set_globals set_attrs _context].
    now rewrite bind_methods_context. }
  split; [| reflexivity].
  intros k Nc Nl Ns Hk. rewrite !lookup_insert_ne by congruence.
  rewrite find_overrides_lookup.
  destruct (__globals__ child !! k) as [v|] eqn:E; [| reflexivity].
  destruct (String.eqb_spec k "__main__") as [|Nm]; [reflexivity |].
  destruct Hk as [|Hk]; [contradiction |].
  destruct v as [| f |]; cbn [is_TplFunc]; try reflexivity.
  exfalso. now apply (Hk f).
Qed.

(** The statement at a page that extends the layout: the layout's main
    block stays the layout's. *)
Lemma extend_parent_own_witness :
  match _extend [new_instance 0 Page ∅] 0 Layout with
  | Some (h', p) =>
      match h' !! p with
      | Some p_inst => __globals__ p_inst !! "__main__"
      | None => None
      end
  | None => None
  end = Some (OFunc (MkTplFunc (BlockCode "Layout" "__main__") (Some 1))).
Proof.
  destruct (extend_parent_own [new_instance 0 Page ∅] 0 Layout
              (new_instance 0 Page ∅) eq_refl (new_instance_wf 0 Page ∅))
    as (h' & p_inst & He & Hp & _ & Hk & _).
  rewrite He, Hp.
  assert ("__main__" <> "child") as N1 by discriminate.
  assert ("__main__" <> "local") as N2 by discriminate.
  assert ("__main__" <> "self") as N3 by discriminate.
  rewrite (Hk "__main__" N1 N2 N3 (or_introl eq_refl)).
  vm_compute. reflexivity.
Defined.

End ExtendInvariants.

(** ** Importing a template *)

Section ImportFacts.
Import Inheritance Importer.

(** X16.  [import_] binds the new instance under the alias, or under the
    loader's default alias when none is given, in the dictionary it is
    given, in place: when that dictionary is the namespace of an instance,
    this instance has the alias from then on, with its other entries, its
    attributes and its class as before, and every other instance keeps its
    namespace, attributes and class.  The new instance is put at the end
    of the heap; its namespace is the one built from the dictionary as it
    was before the alias was bound, so every entry the dictionary had is
    an entry of it, its own blocks of the same names giving way; and when
    [import_] returns, [defined] finds the alias in its context. *)
Theorem import_binds_alias (ld : loader) (h : list instance) (name : string)
  (alias : option string) (gbls : gbls_ref) (tpl_cls : template_class)
  (content : gmap string obj) :
  import_ ld name = Some tpl_cls ->
  gbls_content h gbls = Some content ->
  let a := match alias with
           | Some a => a
           | None => default_alias_for ld name
           end in
  exists h' inst,
    _import ld h name alias gbls
    = Some ((h' ++ [inst])%list, <[a := OInst (length h)]> content, length h) /\
    length h' = length h /\
    (h' ++ [inst])%list !! length h = Some inst /\
    (forall owner, gbls = GlobalsOf owner ->
       exists o o',
         h !! owner = Some o /\ h' !! owner = Some o' /\
         __globals__ o' = <[a := OInst (length h)]> (__globals__ o) /\
         inst_attrs o' = inst_attrs o /\ inst_class o' = inst_class o) /\
    (forall i x, gbls <> GlobalsOf i -> h !! i = Some x ->
       exists y, h' !! i = Some y /\ __globals__ y = __globals__ x /\
                 inst_attrs y = inst_attrs x /\ inst_class y = inst_class x) /\
    inst_class inst = tpl_cls /\
    __globals__ inst = __globals__ (new_instance (length h) tpl_cls content) /\
    (forall k v, content !! k = Some v -> __globals__ inst !! k = Some v) /\
    defined inst a = true.
Proof.
  intros Himp Hcont a. unfold _import. rewrite Himp, Hcont. fold a.
  eexists _, _. split; [reflexivity |].
  assert (length (gbls_bind h gbls a (length h)) = length h) as Hlen.
  { unfold gbls_bind. destruct gbls as [owner|m]; [| reflexivity].
    destruct (h !! owner); [apply length_insert | reflexivity]. }
  split; [exact Hlen |].
  split; [now apply list_lookup_middle |].
  split.
  { intros owner ->. cbn [gbls_content] in Hcont. cbn [gbls_bind].
    destruct (h !! owner) as [o|] eqn:Ho; [| discriminate].
    exists o, (set_globals (<[a:=OInst (length h)]> (__globals__ o)) o).
    split; [reflexivity |]. split; [| now repeat split].
    apply list_lookup_insert_eq. now apply lookup_lt_Some in Ho. }
  split.
  { intros i x Hne Hx. exists x. split; [| now repeat split].
    unfold gbls_bind. destruct gbls as [owner|m]; [| exact Hx].
    destruct (h !! owner); [| exact Hx].
    rewrite list_lookup_insert_ne by congruence. exact Hx. }
  cbn [set_context inst_class __globals__ _context].
  split; [apply new_instance_class |].
  split; [reflexivity |].
  split.
  { intros k v Hk. unfold new_instance. cbn [set_globals __globals__].
    now apply lookup_union_Some_l. }
  unfold defined. cbn [set_context _context].
  apply bool_decide_eq_true_2. rewrite lookup_insert_eq. eauto.
Qed.

(** The statement at a page that imports the layout into its own
    namespace: the page finds the layout under the default alias. *)
Lemma import_binds_alias_witness :
  match _import (MkLoader (fun n => if String.eqb n "layout.html"
                                    then Some Layout else None)
                          (fun n => "layout"))
                [new_instance 0 Page ∅] "layout.html" None (GlobalsOf 0) with
  | Some (h', _, _) =>
      match h' !! 0 with
      | Some page => __globals__ page !! "layout"
      | None => None
      end
  | None => None
  end = Some (OInst 1).
Proof.
  destruct (import_binds_alias
              (MkLoader (fun n => if String.eqb n "layout.html"
                                  then Some Layout else None)
                        (fun n => "layout"))
              [new_instance 0 Page ∅] "layout.html" None (GlobalsOf 0)
              Layout (__globals__ (new_instance 0 Page ∅)) eq_refl eq_refl)
    as (h' & inst & He & Hl & _ & Ho & _).
  rewrite He.
  destruct (Ho 0 eq_refl) as (o & o' & _ & Ho' & Hg & _).
  rewrite lookup_app_l by (rewrite Hl; cbn; lia).
  rewrite Ho', Hg. apply lookup_insert_eq.
Defined.

End ImportFacts.

(** ** Line tables of the exposed functions *)

Section LnotabFacts.
Import Loader Lnotab.
Local Open Scope Z_scope.

(** The table [from_ir] builds knows exactly the lines of the program. *)
Lemma py_to_tpl_dct_lookup (py_lines : list py_line) (j : nat) :
  py_to_tpl_dct py_lines !! j =
  if (Nat.leb 1 j && Nat.leb j (length py_lines))%bool
  then Some (max_seen py_lines j) else None.
Proof.
  unfold py_to_tpl_dct.
  destruct (Nat.leb 1 j && Nat.leb j (length py_lines))%bool eqn:E.
  - apply andb_true_iff in E as [E1 E2].
    apply Nat.leb_le in E1, E2.
    apply elem_of_list_to_map; [apply py_linenos_keys |].
    apply list_elem_of_lookup. exists (j - 1)%nat.
    rewrite py_linenos_lookup by lia.
    replace (j - 1 + 1)%nat with j by lia. reflexivity.
  - apply not_elem_of_list_to_map_1. intros Hin.
    change (@fmap list _ _ _ fst (py_linenos py_lines))
      with (map fst (py_linenos py_lines)) in Hin.
    rewrite py_linenos_closed, map_map in Hin. cbn [fst] in Hin.
    apply list_elem_of_In, in_map_iff in Hin as (i & Hi & Hin).
    apply in_seq in Hin.
    apply andb_false_iff in E as [E|E]; apply Nat.leb_gt in E; lia.
Qed.

Lemma new_lnotab_numbers_from (dct : gmap nat Z) (numbers : list (nat * nat))
  (acc : list (nat * Z)) :
  fold_left (remap_step dct) numbers acc
  = (acc ++ omap (fun e => match dct !! snd e with
                           | Some t => Some (fst e, t)
                           | None => None
                           end) numbers)%list.
Proof.
  revert acc. induction numbers as [|e numbers IH]; intros acc.
  - cbn. now rewrite app_nil_r.
  - cbn [fold_left]. rewrite IH. unfold remap_step.
    change (omap ?f (e :: numbers))
      with (match f e with
            | Some z => z :: omap f numbers
            | None => omap f numbers
            end).
    cbv beta. destruct (dct !! snd e); [rewrite <- app_assoc | ]; reflexivity.
Qed.

(** The lines of the program, among the entries of a line table. *)
Lemma new_lnotab_numbers_closed (py_lines : list py_line)
  (numbers : list (nat * nat)) :
  new_lnotab_numbers (py_to_tpl_dct py_lines) numbers
  = map (fun e => (fst e, max_seen py_lines (snd e)))
      (List.filter
         (fun e => (Nat.leb 1 (snd e) && Nat.leb (snd e) (length py_lines))%bool)
         numbers).
Proof.
  unfold new_lnotab_numbers. rewrite new_lnotab_numbers_from. cbn [app].
  induction numbers as [|e numbers IH]; [reflexivity |].
  change (omap ?f (e :: numbers))
    with (match f e with
          | Some z => z :: omap f numbers
          | None => omap f numbers
          end).
  cbv beta. cbn [List.filter]. rewrite py_to_tpl_dct_lookup.
  destruct (Nat.leb 1 (snd e) && Nat.leb (snd e) (length py_lines))%bool;
    cbn [map]; now rewrite IH.
Qed.

(** X17.  With the table of [from_ir], a function's line table keeps
    exactly the entries whose line is a line of the generated program,
    in their order and with their offsets, each mapped to the largest
    template line met up to that line; entries for other lines (line 0,
    lines past the end) are dropped.  The function is patched unless no
    entry is left, and its first line becomes the mapped first line, or 0
    when that line is unknown. *)
Theorem lnotab_remapped (filename : string) (py_lines : list py_line)
  (co_firstlineno : nat) (numbers : list (nat * nat)) :
  let known :=
    List.filter
      (fun e => (Nat.leb 1 (snd e) && Nat.leb (snd e) (length py_lines))%bool)
      numbers in
  new_lnotab_numbers (py_to_tpl_dct py_lines) numbers
  = map (fun e => (fst e, max_seen py_lines (snd e))) known /\
  (known = [] <-> annotate_from_ir filename py_lines co_firstlineno numbers
                  = None) /\
  (known <> [] ->
   annotate_from_ir filename py_lines co_firstlineno numbers
   = Some (filename,
           if (Nat.leb 1 co_firstlineno
               && Nat.leb co_firstlineno (length py_lines))%bool
           then max_seen py_lines co_firstlineno else 0,
           map (fun e => (fst e, max_seen py_lines (snd e))) known)).
Proof.
  intros known. pose proof (new_lnotab_numbers_closed py_lines numbers) as Hc.
  fold known in Hc. split; [exact Hc |].
  assert (known <> [] -> py_linenos py_lines <> []) as Hne.
  { intros Hk Hl. apply Hk. subst known.
    assert (length py_lines = 0%nat) as Hz.
    { pose proof (f_equal (@length _) Hl) as HL.
      rewrite py_linenos_closed, length_map, length_seq in HL. exact HL. }
    rewrite Hz. clear. induction numbers as [|e l IH]; [reflexivity |].
    cbn [List.filter]. destruct (Nat.leb 1 (snd e)) eqn:E1; cbn [andb];
      [| exact IH].
    destruct (Nat.leb (snd e) 0) eqn:E2; [| exact IH].
    apply Nat.leb_le in E1, E2. lia. }
  unfold annotate_from_ir, annotate_lnotab. rewrite Hc.
  split; [split |].
  - intros ->. cbn [map]. now destruct (py_linenos py_lines).
  - destruct known as [|e k]; [reflexivity |].
    destruct (py_linenos py_lines) eqn:El;
      [exfalso; now apply Hne | discriminate].
  - intros Hk. destruct (py_linenos py_lines) eqn:El;
      [exfalso; now apply Hne |].
    destruct known as [|e k]; [contradiction |]. cbn [map].
    rewrite py_to_tpl_dct_lookup.
    now destruct (Nat.leb 1 co_firstlineno
                  && Nat.leb co_firstlineno (length py_lines))%bool.
Qed.

(** The statement on a program of five lines annotated 3, -, 2, 7, -
    and a function with entries for the lines 1, 2, 4 and 9. *)
Lemma lnotab_remapped_witness :
  annotate_from_ir "page.html"
    [PyLine "a" (Some 3); PyLine "b" None; PyLine "c" (Some 2);
     PyLine "d" (Some 7); PyLine "e" None]
    1 [(0%nat, 1%nat); (6%nat, 2%nat); (10%nat, 4%nat); (14%nat, 9%nat)]
  = Some ("page.html", 3, [(0%nat, 3); (6%nat, 3); (10%nat, 7)]).
Proof.
  destruct (lnotab_remapped "page.html"
              [PyLine "a" (Some 3); PyLine "b" None; PyLine "c" (Some 2);
               PyLine "d" (Some 7); PyLine "e" None]
              1 [(0%nat, 1%nat); (6%nat, 2%nat); (10%nat, 4%nat);
                 (14%nat, 9%nat)]) as (_ & _ & H).
  rewrite H; [reflexivity | discriminate].
Defined.





End LnotabFacts.

(** ** The snippet of a syntax error *)

Section DiagnosticsFacts.
Import Diagnostics.
Local Open Scope Z_scope.

Variable splitlines : string -> list string.

Lemma append_nil_r (s : string) : s ++ EmptyString = s.
Proof. induction s as [|c s IH]; cbn [String.append]; now f_equal. Qed.

Lemma get_source_line_in (source : string) (j : nat) (l : string) :
  splitlines source !! j = Some l ->
  _get_source_line splitlines source (Z.of_nat j) = l.
Proof.
  intros H. unfold _get_source_line.
  destruct (Z.ltb_spec (Z.of_nat j) 0); [lia |].
  now rewrite Nat2Z.id, H.
Qed.

Lemma get_source_line_out (source : string) (j : Z) :
  j < 0 \/ Z.of_nat (length (splitlines source)) <= j ->
  _get_source_line splitlines source j = EmptyString.
Proof.
  intros H. unfold _get_source_line.
  destruct (Z.ltb_spec j 0); [reflexivity |].
  destruct H as [H|H]; [lia |].
  rewrite lookup_ge_None_2; [reflexivity | lia].
Qed.

(** X19.  The snippet has five rows, for the lines [linen - 2] to
    [linen + 2] counted from 1, the third one marked: a row shows the
    line of the source with that number, and is empty when there is no
    such line, before the first line as well as after the last, so the
    rows before line 1 never show lines counted from the end. *)
Theorem snippet_rows (source : string) (linen : Z) :
  let row := fun n : Z => _get_source_line splitlines source (n - 1) in
  _get_source_snippet splitlines source linen
  = plain_row (row (linen - 2)) ++ plain_row (row (linen - 1))
    ++ marked_row (row linen)
    ++ plain_row (row (linen + 1)) ++ plain_row (row (linen + 2)) /\
  (forall n, n <= 0 \/ Z.of_nat (length (splitlines source)) < n ->
     row n = EmptyString) /\
  (forall (j : nat) l, splitlines source !! j = Some l ->
     row (Z.of_nat j + 1) = l).
Proof.
  intros row. split; [| split].
  - unfold _get_source_snippet, Collect.join, row.
    cbn [map app fold_right].
    replace (linen - 1 - 2) with (linen - 2 - 1) by lia.
    replace (linen - 1 - 1) with (linen - 1 - 1) by lia.
    replace (linen - 1 + 1) with (linen + 1 - 1) by lia.
    replace (linen - 1 + 2) with (linen + 2 - 1) by lia.
    now rewrite append_nil_r.
  - intros n Hn. unfold row. apply get_source_line_out. lia.
  - intros j l Hl. unfold row.
    replace (Z.of_nat j + 1 - 1) with (Z.of_nat j) by lia.
    now apply get_source_line_in.
Qed.

End DiagnosticsFacts.

(** The statement at the first line of a source of three lines. *)
Lemma snippet_rows_witness :
  Diagnostics._get_source_snippet (fun _ => ["x = 1"; "y = ("; "z"]) "src" 1
  = Diagnostics.plain_row EmptyString ++ Diagnostics.plain_row EmptyString
    ++ Diagnostics.marked_row "x = 1"
    ++ Diagnostics.plain_row "y = (" ++ Diagnostics.plain_row "z".
Proof.
  destruct (snippet_rows (fun _ => ["x = 1"; "y = ("; "z"]) "src" 1)
    as (H & _).
  rewrite H. reflexivity.
Defined.

(** ** What [_extend] adds, and what is defined *)

Section ExtendAdditions.
Import Inheritance Importer.

Lemma inherited_entry_some (pg : gmap string obj) (k : string) (v : obj) :
  inherited_entry pg k = Some v ->
  k <> "__main__" /\ pg !! k = Some v /\ exists f, v = OFunc f.
Proof.
  unfold inherited_entry. destruct (pg !! k) as [w|]; [| discriminate].
  destruct (String.eqb_spec k "__main__"); [discriminate |].
  destruct w as [|f|]; cbn [is_TplFunc]; try discriminate.
  intros [= <-]. eauto.
Qed.

(** X20.  Whatever [extend] adds to the child is an exposed function or a
    link: a new entry of the child's namespace is [parent], [local], or an
    exposed function of the new parent under a name other than
    [__main__]; a new attribute is a trampoline of its own name, bound to
    the child, for a name that is exposed in the parent's namespace or in
    the child's own. *)
Theorem extend_adds_functions (h : list instance) (self : nat)
  (parent : template_class) (child : instance) :
  h !! self = Some child ->
  wf_instance child ->
  exists h' child',
    _extend h self parent = Some (h', length h) /\
    h' !! self = Some child' /\
    (forall k v, __globals__ child' !! k = Some v ->
       __globals__ child !! k = Some v \/
       (k = "local" /\ v = OInst self) \/
       (k = "parent" /\ v = OInst (length h)) \/
       (__globals__ child !! k = None /\ k <> "__main__" /\
        exists f, v = OFunc f /\
          __globals__ (new_instance (length h) parent (_context child)) !! k
          = Some v)) /\
    (forall k a, inst_attrs child' !! k = Some a ->
       inst_attrs child !! k = Some a \/
       (hasattr child k = false /\ k <> "__main__" /\
        a = OFunc (MkTplFunc (Trampoline k) (Some self)) /\
        exists f,
          __globals__ (new_instance (length h) parent (_context child)) !! k
          = Some (OFunc f) \/
          __globals__ child !! k = Some (OFunc f))).
Proof.
  intros Hchild [[s Hself] _].
  pose proof (extend_result h self parent child s Hchild Hself) as Hext.
  cbv zeta in Hext.
  set (p0 := new_instance (length h) parent (_context child)) in *.
  set (pg := find_overrides (__globals__ child) (__globals__ p0)) in *.
  destruct (find_inherited_lookup self pg child) as (_ & _ & Hlook).
  cbv zeta in Hlook.
  assert (forall k v, pg !! k = Some (OFunc v) ->
            __globals__ child !! k = Some (OFunc v) \/
            __globals__ p0 !! k = Some (OFunc v)) as Hpg.
  { intros k v. subst pg. rewrite find_overrides_lookup.
    destruct (__globals__ child !! k) as [w|]; [| now right].
    destruct (String.eqb k "__main__"); [now right |].
    destruct w as [|f|]; cbn [is_TplFunc]; try (now right).
    intros [= ->]. now left. }
  eexists _, _. split; [exact Hext |].
  split; [exact (heap_lookup_self h self _ child _ Hchild) |].
  cbn [set_globals __globals__ inst_attrs].
  split.
  - intros k v Hk.
    destruct (decide ("local" = k)) as [<-|Nl].
    { rewrite lookup_insert_eq in Hk. injection Hk as <-. right. now left. }
    rewrite lookup_insert_ne in Hk by exact Nl.
    destruct (decide ("parent" = k)) as [<-|Np].
    { rewrite lookup_insert_eq in Hk. injection Hk as <-.
      right. right. now left. }
    rewrite lookup_insert_ne in Hk by exact Np.
    destruct (Hlook k) as [Hg _]. rewrite Hg in Hk.
    destruct (__globals__ child !! k) as [w|] eqn:E; [now left |].
    right. right. right.
    apply inherited_entry_some in Hk as (Nm & Hk & f & ->).
    split; [reflexivity |]. split; [exact Nm |]. exists f.
    split; [reflexivity |].
    destruct (Hpg k f Hk) as [H|H]; [congruence | exact H].
  - intros k a Hk. destruct (Hlook k) as [_ Ha]. rewrite Ha in Hk.
    destruct (inst_attrs child !! k) as [b|] eqn:E; [now left |].
    right. unfold inherited_attr in Hk.
    destruct (inherited_entry pg k) as [v|] eqn:Ev; [| discriminate].
    destruct (cls_attrs (inst_class child) !! k) eqn:Ec; [discriminate |].
    injection Hk as <-.
    apply inherited_entry_some in Ev as (Nm & Hv & f & ->).
    split.
    { unfold hasattr, getattr. rewrite E, Ec.
      apply bool_decide_eq_false_2. now intros [? ?]. }
    split; [exact Nm |]. split; [reflexivity |].
    exists f. destruct (Hpg k f Hv); [now right | now left].
Qed.

(** The statement at a page that extends the layout: the footer is the
    one entry it gains beside the links. *)
Lemma extend_adds_functions_witness :
  exists h' child',
    _extend [new_instance 0 Page ∅] 0 Layout = Some (h', 1) /\
    h' !! 0 = Some child' /\
    (forall v, __globals__ child' !! "title" = Some v -> False).
Proof.
  destruct (extend_adds_functions [new_instance 0 Page ∅] 0 Layout
              (new_instance 0 Page ∅) eq_refl (new_instance_wf 0 Page ∅))
    as (h' & child' & He & Hc & Hk & _).
  exists h', child'. split; [exact He |]. split; [exact Hc |].
  intros v Hv.
  assert (__globals__ (new_instance 0 Page ∅) !! "title" = None) as Hn
    by (vm_compute; reflexivity).
  assert (__globals__ (new_instance 1 Layout
                         (_context (new_instance 0 Page ∅))) !! "title" = None)
    as Hp by (vm_compute; reflexivity).
  destruct (Hk "title" v Hv) as [H|[[H _]|[[H _]|(_ & _ & f & _ & H)]]].
  - rewrite Hn in H. discriminate.
  - discriminate.
  - discriminate.
  - cbn [length] in H. rewrite Hp in H. discriminate.
Defined.

Lemma find_overrides_keeps (sg pg : gmap string obj) (k : string) :
  is_Some (pg !! k) -> is_Some (find_overrides sg pg !! k).
Proof.
  intros Hk. rewrite find_overrides_lookup.
  destruct (sg !! k) as [v|]; [| exact Hk].
  destruct (String.eqb k "__main__"); [exact Hk |].
  destruct (is_TplFunc v); [eauto | exact Hk].
Qed.

Lemma new_instance_context_visible (self : nat) (cls : template_class)
  (context : gmap string obj) :
  context_visible (new_instance self cls context).
Proof.
  intros k. unfold defined, defined_global.
  rewrite !bool_decide_eq_true. unfold new_instance.
  cbn [set_globals set_attrs __globals__ _context].
  rewrite bind_methods_context. cbn [_context].
  intros Hk. apply lookup_union_is_Some. now left.
Qed.

End ExtendAdditions.

Section DefinedFacts.
Import Inheritance Importer.

(** X21.  A name the caller passed in the context is a name of the
    namespace: this holds of every instance when it is built, and when
    it holds of the child, [extend] keeps it for the child and has it for
    the parent it creates. *)
Theorem context_stays_visible (h : list instance) (self : nat)
  (parent : template_class) (child : instance) :
  h !! self = Some child ->
  wf_instance child ->
  context_visible child ->
  (forall i cls context, context_visible (new_instance i cls context)) /\
  exists h' child' p_inst,
    _extend h self parent = Some (h', length h) /\
    h' !! self = Some child' /\
    h' !! length h = Some p_inst /\
    context_visible child' /\
    context_visible p_inst.
Proof.
  intros Hchild [[s Hself] _] Hv.
  split; [apply new_instance_context_visible |].
  pose proof (extend_result h self parent child s Hchild Hself) as Hext.
  cbv zeta in Hext.
  set (p0 := new_instance (length h) parent (_context child)) in *.
  set (pg := find_overrides (__globals__ child) (__globals__ p0)) in *.
  destruct (find_inherited_lookup self pg child) as (_ & Hctx & _).
  cbv zeta in Hctx.
  eexists _, _, _. split; [exact Hext |].
  split; [exact (heap_lookup_self h self _ child _ Hchild) |].
  split; [apply heap_lookup_new |].
  split.
  - intros k. unfold defined, defined_global.
    rewrite !bool_decide_eq_true. cbn [set_globals __globals__ _context].
    rewrite Hctx. intros Hk.
    assert (is_Some (__globals__ child !! k)) as [v Hg].
    { specialize (Hv k). unfold defined, defined_global in Hv.
      rewrite !bool_decide_eq_true in Hv. now apply Hv. }
    rewrite !lookup_insert_is_Some.
    destruct (decide ("local" = k)); [now left |]. right. split; [assumption |].
    destruct (decide ("parent" = k)); [now left |]. right.
    split; [assumption |]. exists v. now apply find_inherited_keeps.
  - intros k. unfold defined, defined_global.
    rewrite !bool_decide_eq_true. cbn [set_globals __globals__ _context].
    intros Hk.
    assert (is_Some (__globals__ p0 !! k)) as Hp.
    { pose proof (new_instance_context_visible (length h) parent
                    (_context child) k) as Hn.
      unfold defined, defined_global in Hn.
      rewrite !bool_decide_eq_true in Hn. now apply Hn. }
    rewrite !lookup_insert_is_Some.
    destruct (decide ("self" = k)); [now left |]. right. split; [assumption |].
    destruct (decide ("local" = k)); [now left |]. right.
    split; [assumption |].
    destruct (decide ("child" = k)); [now left |]. right.
    split; [assumption |]. now apply find_overrides_keeps.
Qed.

(** The statement at a page built with a title, which extends the
    layout. *)
Lemma context_stays_visible_witness :
  exists h' child' p_inst,
    _extend [new_instance 0 Page {["title" := OOther "Home"]}] 0 Layout
    = Some (h', 1) /\
    h' !! 0 = Some child' /\ h' !! 1 = Some p_inst /\
    context_visible child' /\ context_visible p_inst.
Proof.
  exact (proj2 (context_stays_visible
                  [new_instance 0 Page {["title" := OOther "Home"]}] 0 Layout
                  (new_instance 0 Page {["title" := OOther "Home"]}) eq_refl
                  (new_instance_wf 0 Page {["title" := OOther "Home"]})
                  (new_instance_context_visible 0 Page
                     {["title" := OOther "Home"]}))).
Defined.

End DefinedFacts.

(** ** Fragments and pairs *)

Section FragmentFacts.
Import AttrRenderer.

Lemma insert_stable_permutation (x : string * value)
  (l r : list (string * value)) :
  insert_stable x l = Some r -> Permutation (x :: l) r.
Proof.
  revert r. induction l as [|y l IH]; intros r; cbn [insert_stable].
  - intros [= <-]. reflexivity.
  - destruct (pair_lt y x) as [[|]|]; try discriminate.
    + destruct (insert_stable x l) as [r'|]; [| discriminate].
      intros [= <-]. rewrite perm_swap. constructor. now apply IH.
    + intros [= <-]. reflexivity.
Qed.

(** Whenever [sorted] returns, it returns a rearrangement of its input. *)
Lemma sorted_permutation (l r : list (string * value)) :
  sorted l = Some r -> Permutation l r.
Proof.
  revert r. induction l as [|x l IH]; intros r; cbn [sorted].
  - intros [= <-]. reflexivity.
  - destruct (sorted l) as [r'|]; [| discriminate]. intros H.
    apply insert_stable_permutation in H. rewrite <- H.
    constructor. now apply IH.
Qed.

Lemma render_attr_space (E : gset string) (mode k : string) (v : value)
  (frag : string) :
  render_attr E mode k v = Some frag -> exists rest, frag = " " ++ rest.
Proof.
  unfold render_attr, name_value.
  destruct (resolve_value E k v); try discriminate;
    destruct (String.prefix "html" mode && is_empty_attr E k)%bool;
    intros [= <-]; eauto.
Qed.

(** X22.  Whenever the renderer yields its fragments, they are the
    fragments of the pairs it was given, each as often as the input has
    it, and no other: the output is a rearrangement of what the loop body
    makes of the pairs one by one.  So each fragment comes from a pair of
    the input and each pair that makes a fragment has it in the output;
    every fragment starts with a space; and there are at most as many
    fragments as pairs. *)
Theorem render_attrs_sound (HTML_EMPTY_ATTRS : gset string)
  (pairs : list (string * value)) (mode : string) (out : list string) :
  _render_attrs HTML_EMPTY_ATTRS (AttrsPairs pairs) mode = Some out ->
  Permutation out
    (omap (fun kv => render_attr HTML_EMPTY_ATTRS mode (fst kv) (snd kv))
       pairs) /\
  (forall frag, In frag out <->
     exists k v, In (k, v) pairs /\
                 render_attr HTML_EMPTY_ATTRS mode k v = Some frag) /\
  (forall frag, In frag out -> exists rest, frag = " " ++ rest) /\
  length out <= length pairs.
Proof.
  unfold _render_attrs. destruct (sorted pairs) as [r|] eqn:Hr;
    [| discriminate].
  intros [= <-]. apply sorted_permutation in Hr.
  assert (forall frag,
            In frag (omap (fun kv => render_attr HTML_EMPTY_ATTRS mode
                                       (fst kv) (snd kv)) r) <->
            exists k v, In (k, v) pairs /\
                        render_attr HTML_EMPTY_ATTRS mode k v = Some frag)
    as Hin.
  { intros frag. rewrite <- list_elem_of_In, list_elem_of_omap. split.
    - intros ([k v] & Hx & Hf). exists k, v. split; [| exact Hf].
      apply list_elem_of_In. now rewrite Hr.
    - intros (k & v & Hx & Hf). exists (k, v). split; [| exact Hf].
      rewrite <- Hr. now apply list_elem_of_In. }
  split; [now rewrite Hr |].
  split; [exact Hin |]. split.
  - intros frag Hf. apply Hin in Hf as (k & v & _ & Hf).
    now apply render_attr_space in Hf.
  - rewrite (Permutation_length Hr). clear.
    induction r as [|x r IH]; [cbn; lia |].
    change (omap ?f (x :: r))
      with (match f x with
            | Some z => z :: omap f r
            | None => omap f r
            end).
    cbv beta. destruct (render_attr _ _ _ _); cbn [length]; lia.
Qed.

(** The statement at two pairs of which one has no value. *)
Lemma render_attrs_sound_witness :
  exists k v,
    In (k, v) [("id", VStr "x"); ("href", VNone)] /\
    render_attr ∅ "xml" k v
    = Some (" id=" ++ String dquote (String "x" (String dquote EmptyString))).
Proof.
  refine (proj1 (proj1 (proj2 (render_attrs_sound ∅
            [("id", VStr "x"); ("href", VNone)] "xml"
            [" id=" ++ String dquote (String "x" (String dquote EmptyString))]
            eq_refl)) _) _).
  now left.
Defined.

End FragmentFacts.
